(** * Intrusion alert pipeline: publisher.py and subscriber.py

    A shallow embedding of the edge publisher (zone test, detection scan,
    cooldown, alert dispatch, process exit) and of the monitor subscriber
    (message handler, process exit), with the properties of the
    specification stated over it.

    Conventions.
    - Python [float] and [int] values are exact numbers: a float is a
      rational ([Q]), an int is an integer ([Z]).  Comparisons are the exact
      ones ([Qle_bool]); rounding of float arithmetic is not modelled.
    - Python [str] is a list of Unicode code points ([list N]); [bytes] is a
      Rocq [string] (a list of 8-bit characters).
    - Calls into the environment (clock, camera, detector, broker, file
      system, keyboard) are inputs of the step functions; what the program
      prints or sends is returned as a list of events.
    - [try]/[except] is a match on the outcome of the guarded call; a
      call outside every [try] that raises ends the function with that
      exception.
    - Standard output is a UTF-8 stream with strict error handling, so
      [print] raises on a text that holds a surrogate and on no other.
    - The interpreter's limits on nesting and on the digits of an integer
      are inputs of [json.loads]. *)

From Stdlib Require Import ZArith NArith QArith Lqa Lia Bool List String Ascii.
From Stdlib Require Import Permutation Qround.
Import ListNotations.



(** ** Python text *)

Module Text.

Definition str := list N.

(** An ASCII literal as a Python [str]. *)
Definition txt (s : string) : str :=
  List.map N_of_ascii (list_ascii_of_string s).

(** [a == b] on two [str]. *)
Fixpoint str_eqb (a b : str) : bool :=
  match a, b with
  | [], [] => true
  | x :: a', y :: b' => N.eqb x y && str_eqb a' b'
  | _, _ => false
  end.

(** [bytes] as the list of its byte values, and back. *)
Definition bytes_to_list (b : string) : list N :=
  List.map N_of_ascii (list_ascii_of_string b).

Definition bytes_of_list (l : list N) : string :=
  string_of_list_ascii (List.map ascii_of_N l).

(** A Unicode scalar value: a code point that is not a surrogate. *)
Definition is_scalar (c : N) : bool :=
  (N.leb c 1114111) && negb ((N.leb 55296 c) && (N.leb c 57343)).

End Text.

Import Text.

(** ** UTF-8

    [bytes.decode("utf-8")] as called by the subscriber, and
    [str.encode("utf-8")], which the MQTT client applies to a text payload
    before it goes on the wire.  Both are strict: a malformed sequence, an
    overlong form or a surrogate raises, here [None]. *)

Module Utf8.

Open Scope N_scope.

Definition is_cont (b : N) : bool := (128 <=? b) && (b <? 192).

Definition is_surrogate (c : N) : bool := (55296 <=? c) && (c <=? 57343).

Fixpoint decode_list (bs : list N) : option str :=
  match bs with
  | [] => Some []
  | b0 :: r =>
    if b0 <? 128 then option_map (cons b0) (decode_list r)
    else if b0 <? 194 then None
    else if b0 <? 224 then
      match r with
      | b1 :: r1 =>
        if is_cont b1
        then option_map (cons ((b0 - 192) * 64 + (b1 - 128))) (decode_list r1)
        else None
      | _ => None
      end
    else if b0 <? 240 then
      match r with
      | b1 :: b2 :: r2 =>
        let c := (b0 - 224) * 4096 + (b1 - 128) * 64 + (b2 - 128) in
        if is_cont b1 && is_cont b2 && (2048 <=? c) && negb (is_surrogate c)
        then option_map (cons c) (decode_list r2)
        else None
      | _ => None
      end
    else if b0 <? 245 then
      match r with
      | b1 :: b2 :: b3 :: r3 =>
        let c := (b0 - 240) * 262144 + (b1 - 128) * 4096
                 + (b2 - 128) * 64 + (b3 - 128) in
        if is_cont b1 && is_cont b2 && is_cont b3
           && (65536 <=? c) && (c <=? 1114111)
        then option_map (cons c) (decode_list r3)
        else None
      | _ => None
      end
    else None
  end.

(** [b.decode("utf-8")] *)
Definition decode (b : string) : option str := decode_list (bytes_to_list b).

Definition encode_char (c : N) : option (list N) :=
  if c <? 128 then Some [c]
  else if c <? 2048 then Some [192 + c / 64; 128 + c mod 64]
  else if c <? 65536 then
    if is_surrogate c then None
    else Some [224 + c / 4096; 128 + (c / 64) mod 64; 128 + c mod 64]
  else if c <=? 1114111 then
    Some [240 + c / 262144; 128 + (c / 4096) mod 64;
          128 + (c / 64) mod 64; 128 + c mod 64]
  else None.

Fixpoint encode_list (s : str) : option (list N) :=
  match s with
  | [] => Some []
  | c :: r =>
    match encode_char c, encode_list r with
    | Some bs, Some rest => Some (bs ++ rest)
    | _, _ => None
    end
  end.

(** [s.encode("utf-8")] *)
Definition encode (s : str) : option string :=
  option_map bytes_of_list (encode_list s).

End Utf8.

(** ** The json module of the Python standard library

    Neither function is part of the repository; they are modelled after
    the library's pure-Python reference ([json.encoder], [json.decoder],
    [json.scanner]) with the default options both programs use.  A float
    is kept as the groups of the literal it is built from, and the two
    limits of the interpreter that make [json.loads] raise on a valid text
    are inputs ([limits]). *)

Module Json.

Open Scope N_scope.

(** A float that [json.loads] returns: [float(text)] for the literal
    with the given sign, integer digits, fraction digits and exponent, or
    one of the three constants.  The literal is kept as written and not
    turned into a number: [float] rounds it to the nearest double, and to
    an infinity beyond the range ([1e400] is [inf]), so two literals can
    stand for the same float.  Nothing below compares two floats. *)
Inductive pyfloat :=
| FLiteral (neg : bool) (int : str) (frac : str) (e : Z)
| FNaN
| FInfinity
| FNegInfinity.

(** What [json.loads] can return. A dict keeps its keys in insertion
    order, each key once. *)
Unset Elimination Schemes.
Inductive value :=
| VNone
| VBool (b : bool)
| VInt (z : Z)
| VFloat (f : pyfloat)
| VStr (s : str)
| VList (l : list value)
| VDict (d : list (str * value)).
Set Elimination Schemes.

(** [d[k] = v] *)
Fixpoint dict_set (d : list (str * value)) (k : str) (v : value)
  : list (str * value) :=
  match d with
  | [] => [(k, v)]
  | (k', v') :: d' =>
    if str_eqb k k' then (k', v) :: d' else (k', v') :: dict_set d' k v
  end.

(** [dict(pairs)] *)
Definition dict_of_pairs (pairs : list (str * value)) : list (str * value) :=
  fold_left (fun d kv => dict_set d (fst kv) (snd kv)) pairs [].

(** [d.get(k, default)] *)
Fixpoint dict_get (d : list (str * value)) (k : str) (default : value)
  : value :=
  match d with
  | [] => default
  | (k', v) :: d' => if str_eqb k k' then v else dict_get d' k default
  end.

(** *** Encoder: [json.dumps] on a dict of [str] to [str] *)

Definition hexdigit (d : N) : N := if d <? 10 then 48 + d else 87 + d.

(** ['{0:04x}'.format(n)] for [n < 0x10000] *)
Definition hex4 (n : N) : str :=
  [hexdigit ((n / 4096) mod 16); hexdigit ((n / 256) mod 16);
   hexdigit ((n / 16) mod 16); hexdigit (n mod 16)].

Definition u_escape (n : N) : str := 92 :: 117 :: hex4 n.

(** The replacement of one character by [encode_basestring_ascii]. *)
Definition escape_char (c : N) : str :=
  if c =? 92 then [92; 92]
  else if c =? 34 then [92; 34]
  else if c =? 8 then [92; 98]
  else if c =? 12 then [92; 102]
  else if c =? 10 then [92; 110]
  else if c =? 13 then [92; 114]
  else if c =? 9 then [92; 116]
  else if (32 <=? c) && (c <=? 126) then [c]
  else if c <? 65536 then u_escape c
  else
    let n := c - 65536 in
    let s1 := N.lor 55296 (N.land (N.shiftr n 10) 1023) in
    let s2 := N.lor 56320 (N.land n 1023) in
    u_escape s1 ++ u_escape s2.

Definition encode_basestring_ascii (s : str) : str :=
  34 :: flat_map escape_char s ++ [34].

Definition dumps_item (kv : str * str) : str :=
  encode_basestring_ascii (fst kv) ++ [58; 32]
  ++ encode_basestring_ascii (snd kv).

Fixpoint join_items (items : list str) : str :=
  match items with
  | [] => []
  | [x] => x
  | x :: rest => x ++ [44; 32] ++ join_items rest
  end.

(** [json.dumps(d)] for a dict whose keys and values are [str]. *)
Definition dumps (d : list (str * str)) : str :=
  123 :: join_items (List.map dumps_item d) ++ [125].

(** *** Decoder: [json.loads] *)

Definition is_ws (c : N) : bool :=
  (c =? 32) || (c =? 9) || (c =? 10) || (c =? 13).

Fixpoint skip_ws (s : str) : str :=
  match s with
  | c :: r => if is_ws c then skip_ws r else s
  | [] => []
  end.

Definition hexval (c : N) : option N :=
  if (48 <=? c) && (c <=? 57) then Some (c - 48)
  else if (97 <=? c) && (c <=? 102) then Some (c - 87)
  else if (65 <=? c) && (c <=? 70) then Some (c - 55)
  else None.

Definition decode_uXXXX (h1 h2 h3 h4 : N) : option N :=
  match hexval h1, hexval h2, hexval h3, hexval h4 with
  | Some a, Some b, Some c, Some d => Some (((a * 16 + b) * 16 + c) * 16 + d)
  | _, _, _, _ => None
  end.

(** The [BACKSLASH] table. *)
Definition backslash (e : N) : option N :=
  if e =? 34 then Some 34
  else if e =? 92 then Some 92
  else if e =? 47 then Some 47
  else if e =? 98 then Some 8
  else if e =? 102 then Some 12
  else if e =? 110 then Some 10
  else if e =? 114 then Some 13
  else if e =? 116 then Some 9
  else None.

Definition is_high_surrogate (u : N) : bool := (55296 <=? u) && (u <=? 56319).
Definition is_low_surrogate (u : N) : bool := (56320 <=? u) && (u <=? 57343).

Definition join_surrogates (u u2 : N) : N :=
  65536 + N.lor (N.shiftl (u - 55296) 10) (u2 - 56320).

Definition push (c : N) (r : option (str * str)) : option (str * str) :=
  match r with
  | Some (content, rest) => Some (c :: content, rest)
  | None => None
  end.

(** [scanstring] in strict mode, from just after the opening quote:
    the content and the text after the closing quote. *)
Fixpoint scanstring (s : str) : option (str * str) :=
  match s with
  | [] => None
  | c :: r =>
    if c =? 34 then Some ([], r)
    else if c =? 92 then
      match r with
      | [] => None
      | e :: r1 =>
        if e =? 117 then
          match r1 with
          | h1 :: h2 :: h3 :: h4 :: r2 =>
            match decode_uXXXX h1 h2 h3 h4 with
            | None => None
            | Some uni =>
              if is_high_surrogate uni then
                match r2 with
                | b :: u :: r3 =>
                  if (b =? 92) && (u =? 117) then
                    match r3 with
                    | g1 :: g2 :: g3 :: g4 :: r4 =>
                      match decode_uXXXX g1 g2 g3 g4 with
                      | None => None
                      | Some uni2 =>
                        if is_low_surrogate uni2
                        then push (join_surrogates uni uni2) (scanstring r4)
                        else push uni (scanstring r2)
                      end
                    | _ => None
                    end
                  else push uni (scanstring r2)
                | _ => push uni (scanstring r2)
                end
              else push uni (scanstring r2)
            end
          | _ => None
          end
        else
          match backslash e with
          | Some ch => push ch (scanstring r1)
          | None => None
          end
      end
    else if c <? 32 then None
    else push c (scanstring r)
  end.

(** *** Numbers: [NUMBER_RE] and the conversion of its three groups *)

Definition is_digit (c : N) : bool := (48 <=? c) && (c <=? 57).

Fixpoint span_digits (s : str) : str * str :=
  match s with
  | c :: r =>
    if is_digit c
    then let (ds, rest) := span_digits r in (c :: ds, rest)
    else ([], s)
  | [] => ([], [])
  end.

Definition digits_value (ds : str) : N :=
  fold_left (fun acc c => acc * 10 + (c - 48)) ds 0.

(** The integer group (an optional minus, then a lone 0 or a digit string
    without leading zero): sign, digits, rest. *)
Definition match_integer (s : str) : option (bool * str * str) :=
  let (neg, s1) :=
    match s with
    | c :: r => if c =? 45 then (true, r) else (false, s)
    | [] => (false, s)
    end in
  match s1 with
  | c :: r =>
    if c =? 48 then Some (neg, [c], r)
    else if is_digit c
    then let (ds, rest) := span_digits s1 in Some (neg, ds, rest)
    else None
  | [] => None
  end.

(** The fraction group (a point and at least one digit): digits, rest. *)
Definition match_frac (s : str) : option (str * str) :=
  match s with
  | c :: r =>
    if c =? 46 then
      match span_digits r with
      | ([], _) => None
      | (ds, rest) => Some (ds, rest)
      end
    else None
  | [] => None
  end.

(** The exponent group (e or E, an optional sign, at least one digit):
    exponent, rest. *)
Definition match_exp (s : str) : option (Z * str) :=
  match s with
  | e :: r =>
    if (e =? 101) || (e =? 69) then
      let (neg, r1) :=
        match r with
        | c :: r' =>
          if c =? 45 then (true, r')
          else if c =? 43 then (false, r')
          else (false, r)
        | [] => (false, r)
        end in
      match span_digits r1 with
      | ([], _) => None
      | (ds, rest) =>
        let v := Z.of_N (digits_value ds) in
        Some (if neg then (- v)%Z else v, rest)
      end
    else None
  | [] => None
  end.

(** What of the interpreter decides whether [json.loads] raises on a
    text that is valid JSON.
    - [spare_nesting]: the recursion limit lets the scanner enter
      [1 + spare_nesting] containers inside one another (about a thousand
      by default, less the frames already in use); entering one more
      raises [RecursionError].
    - [max_str_digits]: [sys.get_int_max_str_digits()] (4300 by default;
      0 for no limit); an integer literal of more digits than that, and
      of more than 640, raises [ValueError]. *)
Record limits := {
  spare_nesting : nat;
  max_str_digits : nat
}.

(** The test of [int(text)] on the number of digits. *)
Definition too_many_digits (lim : limits) (digits : nat) : bool :=
  Nat.ltb 640 digits
  && Nat.ltb 0 (max_str_digits lim)
  && Nat.ltb (max_str_digits lim) digits.

Inductive number_match :=
| NoNumber
| NumberRaises
| Number (v : value) (rest : str).

(** [NUMBER_RE.match] and the conversion of its groups: an integer when
    there is neither fraction nor exponent, a float otherwise. *)
Definition match_number (lim : limits) (s : str) : number_match :=
  match match_integer s with
  | None => NoNumber
  | Some (neg, int, r) =>
    let '(frac, r1) :=
      match match_frac r with
      | Some (ds, rest) => (Some ds, rest)
      | None => (None, r)
      end in
    let '(ex, r2) :=
      match match_exp r1 with
      | Some (e, rest) => (Some e, rest)
      | None => (None, r1)
      end in
    match frac, ex with
    | None, None =>
      if too_many_digits lim (List.length int) then NumberRaises
      else
        let m := Z.of_N (digits_value int) in
        Number (VInt (if neg then (- m)%Z else m)) r2
    | _, _ =>
      Number (VFloat (FLiteral neg int
                        (match frac with Some ds => ds | None => [] end)
                        (match ex with Some e => e | None => 0%Z end)))
             r2
    end
  end.

(** [s[idx:idx+len(p)] == p], with the text after it. *)
Fixpoint strip_prefix (p s : str) : option str :=
  match p, s with
  | [], _ => Some s
  | a :: p', b :: s' => if a =? b then strip_prefix p' s' else None
  | _ :: _, [] => None
  end.

(** *** The scanner: [scan_once], [JSONArray] and [JSONObject]

    The three are mutually recursive; [fuel] bounds the recursion and
    [loads] passes more than any text can use.  [depth] is the number of
    containers that may still be entered; [None] is a raised exception
    ([JSONDecodeError], [RecursionError] or [ValueError]). *)

Fixpoint scan_once (fuel : nat) (lim : limits) (depth : nat) (s : str)
  : option (value * str) :=
  match fuel with
  | O => None
  | S fuel' =>
    match s with
    | [] => None
    | c :: r =>
      if c =? 34 then
        match scanstring r with
        | Some (content, rest) => Some (VStr content, rest)
        | None => None
        end
      else if c =? 123 then
        match depth with
        | O => None
        | S depth' =>
          match skip_ws r with
          | c1 :: r1 =>
            if c1 =? 125 then Some (VDict [], r1)
            else if c1 =? 34 then object_loop fuel' lim depth' r1 []
            else None
          | [] => None
          end
        end
      else if c =? 91 then
        match depth with
        | O => None
        | S depth' =>
          match skip_ws r with
          | c1 :: r1 =>
            if c1 =? 93 then Some (VList [], r1)
            else array_loop fuel' lim depth' (c1 :: r1) []
          | [] => None
          end
        end
      else
        match strip_prefix (txt "null") s with
        | Some rest => Some (VNone, rest)
        | None =>
        match strip_prefix (txt "true") s with
        | Some rest => Some (VBool true, rest)
        | None =>
        match strip_prefix (txt "false") s with
        | Some rest => Some (VBool false, rest)
        | None =>
        match match_number lim s with
        | Number v rest => Some (v, rest)
        | NumberRaises => None
        | NoNumber =>
        match strip_prefix (txt "NaN") s with
        | Some rest => Some (VFloat FNaN, rest)
        | None =>
        match strip_prefix (txt "Infinity") s with
        | Some rest => Some (VFloat FInfinity, rest)
        | None =>
        match strip_prefix (txt "-Infinity") s with
        | Some rest => Some (VFloat FNegInfinity, rest)
        | None => None
        end end end end end end end
    end
  end

(** [JSONArray], positioned on the first character of an element. *)
with array_loop (fuel : nat) (lim : limits) (depth : nat) (s : str)
  (values : list value) : option (value * str) :=
  match fuel with
  | O => None
  | S fuel' =>
    match scan_once fuel' lim depth s with
    | None => None
    | Some (v, r) =>
      match skip_ws r with
      | c :: r1 =>
        if c =? 93 then Some (VList (values ++ [v]), r1)
        else if c =? 44
        then array_loop fuel' lim depth (skip_ws r1) (values ++ [v])
        else None
      | [] => None
      end
    end
  end

(** [JSONObject], positioned just after the opening quote of a key. *)
with object_loop (fuel : nat) (lim : limits) (depth : nat) (s : str)
  (pairs : list (str * value)) : option (value * str) :=
  match fuel with
  | O => None
  | S fuel' =>
    match scanstring s with
    | None => None
    | Some (key, r) =>
      match skip_ws r with
      | c :: r1 =>
        if c =? 58 then
          match scan_once fuel' lim depth (skip_ws r1) with
          | None => None
          | Some (v, r2) =>
            match skip_ws r2 with
            | c2 :: r3 =>
              if c2 =? 125
              then Some (VDict (dict_of_pairs (pairs ++ [(key, v)])), r3)
              else if c2 =? 44 then
                match skip_ws r3 with
                | c3 :: r4 =>
                  if c3 =? 34
                  then object_loop fuel' lim depth r4 (pairs ++ [(key, v)])
                  else None
                | [] => None
                end
              else None
            | [] => None
            end
          end
        else None
      | [] => None
      end
    end
  end.

(** [json.loads(s)] for a [str]; [None] is a raised exception
    ([JSONDecodeError], or [RecursionError] or [ValueError] at one of the
    limits).  The fuel is more than the scanner can use on [s]. *)
Definition loads (lim : limits) (s : str) : option value :=
  match s with
  | 65279 :: _ => None
  | _ =>
    match scan_once (2 * List.length s + 2) lim (S (spare_nesting lim))
                    (skip_ws s) with
    | Some (v, r) =>
      match skip_ws r with
      | [] => Some v
      | _ :: _ => None
      end
    | None => None
    end
  end.

End Json.

(** ** How a Python script ends

    Both files end with [if __name__ == "__main__": main()]: when [main]
    returns the interpreter exits with status 0, [sys.exit(n)] exits with
    [n], and an exception nobody catches exits with status 1. *)

Module Process.

Inductive termination :=
| Returns
| SysExit (code : Z)
| Uncaught.

Definition exit_status (t : termination) : Z :=
  match t with
  | Returns => 0
  | SysExit code => code
  | Uncaught => 1
  end.

End Process.

(** ** publisher.py *)

Module Publisher.

Open Scope Q_scope.

(** *** Tunable constants (lines 28-38) *)

Definition MQTT_TOPIC : str := txt "home/security/alert".
Definition CONF_THRESHOLD : Q := 1 # 2.
Definition COOLDOWN_SECONDS : Z := 5.
Definition ROI_X1 : Z := 100.
Definition ROI_Y1 : Z := 100.
Definition ROI_X2 : Z := 500.
Definition ROI_Y2 : Z := 400.
Definition LOCATION_LABEL : str := txt "Living Room".

(** *** Python number operations used by the module *)

(** [a <= b] on numbers. *)
Definition py_le (a b : Q) : bool := Qle_bool a b.

(** [a < b] on numbers. *)
Definition py_lt (a b : Q) : bool := negb (Qle_bool b a).

(** [int(x)] on a float: truncation towards zero. *)
Definition py_int (x : Q) : Z := Z.quot (Qnum x) (Z.pos (Qden x)).

(** [model.names.get(k, default)]: a dict with integer keys. *)
Fixpoint names_get (d : list (Z * str)) (k : Z) (default : str) : str :=
  match d with
  | [] => default
  | (k', v) :: d' => if Z.eqb k k' then v else names_get d' k default
  end.

(** *** point_in_rect (lines 88-94)

    [return (x1 <= cx <= x2) and (y1 <= cy <= y2)] *)
Definition point_in_rect (cx cy : Q) (x1 y1 x2 y2 : Z) : bool :=
  (py_le (inject_Z x1) cx && py_le cx (inject_Z x2))
  && (py_le (inject_Z y1) cy && py_le cy (inject_Z y2)).

(** *** The detection scan of one frame (lines 130-167) *)

(** One element of [result.boxes]: [box.cls[0]], [box.conf[0]] and
    [box.xyxy[0]] are floats produced by the detector. *)
Record Box := {
  cls : Q;
  conf : Q;
  xyxy : Q * Q * Q * Q
}.

Definition color := (Z * Z * Z)%type.

(** The two locals the scan assigns. *)
Record scan_state := {
  intrusion : bool;
  roi_color : color
}.

Definition scan_init : scan_state :=
  {| intrusion := false; roi_color := (0, 255, 0)%Z |}.

(** The centre computed at lines 147-149 from the integer corners. *)
Definition box_center (b : Box) : Q * Q :=
  let '(bx1, by1, bx2, by2) := xyxy b in
  let x1 := py_int bx1 in
  let y1 := py_int by1 in
  let x2 := py_int bx2 in
  let y2 := py_int by2 in
  (inject_Z (x1 + x2) / 2, inject_Z (y1 + y2) / 2).

(** Body of [for box in result.boxes] (lines 139-167); drawing calls on
    the frame are left out. *)
Definition box_step (names : list (Z * str)) (st : scan_state) (box : Box)
  : scan_state :=
  let cls_id := py_int (cls box) in
  let conf := conf box in
  let label := names_get names cls_id (txt "unknown") in
  if negb (str_eqb label (txt "person")) || py_lt conf CONF_THRESHOLD then
    st
  else
    let '(cx, cy) := box_center box in
    if point_in_rect cx cy ROI_X1 ROI_Y1 ROI_X2 ROI_Y2 then
      {| intrusion := true; roi_color := (0, 0, 255)%Z |}
    else st.

(** [for result in results: for box in result.boxes: ...] *)
Definition scan_results (names : list (Z * str)) (results : list (list Box))
  : scan_state :=
  fold_left (fun st result => fold_left (box_step names) result st)
            results scan_init.

(** *** publish_alert (lines 67-85) *)

Inductive event :=
| Print_loading_model
| Print_connect_failed
| Print_camera_failed
| Print_frame_read_failed
| Sleep_half_second
| ImWrite (filename : str)
| Print_evidence_saved (filename : str)
| Print_evidence_failed
| MqttPublish (topic payload : str)
| Print_alert_sent (payload : list (str * str))
| Print_publish_failed
| Print_quit
| Print_ctrl_c
| Print_runtime_error
| Release_all.

(** What the environment does during one call of [publish_alert]:
    the text [datetime.now().strftime(...)] returns, whether
    [client.publish] raises, and the reading of [time.time()] at line 82. *)
Record publish_env := {
  payload_stamp : str;
  publish_raises : bool;
  sent_clock : Q
}.

(** The dict built at lines 73-77. *)
Definition alert_payload (stamp : str) : list (str * str) :=
  [(txt "status", txt "INTRUSION");
   (txt "timestamp", stamp);
   (txt "location", LOCATION_LABEL)].

Definition publish_alert (env : publish_env) (last_sent_ts : option Q)
  : list event * Q :=
  let payload := alert_payload (payload_stamp env) in
  if publish_raises env then
    ([Print_publish_failed],
     match last_sent_ts with Some t => t | None => 0 end)
  else
    ([MqttPublish MQTT_TOPIC (Json.dumps payload); Print_alert_sent payload],
     sent_clock env).

(** *** One iteration of the frame loop (lines 124-211) *)

(** What the environment does during one iteration: the result of
    [cap.read()], the detector's output, the reading of [time.time()] at
    line 181, the text of the evidence time stamp, whether [cv2.imwrite]
    raises, the publish call, and the key returned by [cv2.waitKey(1)]. *)
Record frame_env := {
  ret : bool;
  results : list (list Box);
  now : Q;
  evidence_stamp : str;
  imwrite_raises : bool;
  pub : publish_env;
  key : Z
}.

(** The test of line 195:
    [(last_sent is None) or (now - last_sent >= COOLDOWN_SECONDS)] *)
Definition cooldown_over (last_sent : option Q) (now : Q) : bool :=
  match last_sent with
  | None => true
  | Some t => py_le (inject_Z COOLDOWN_SECONDS) (now - t)
  end.

Inductive control := Continue | Break.

(** The outcome of one iteration: what was printed or sent, the value of
    [last_sent] afterwards, whether the guarded block of lines 196-205 ran,
    and how the iteration ended. *)
Record step_result := {
  events : list event;
  last_sent_after : option Q;
  dispatched : bool;
  ctl : control
}.

Definition evidence_filename (stamp : str) : str :=
  txt "evidence/intruder_" ++ stamp ++ txt ".jpg".

Definition frame_step (names : list (Z * str)) (last_sent : option Q)
  (f : frame_env) : step_result :=
  if negb (ret f) then
    {| events := [Print_frame_read_failed; Sleep_half_second];
       last_sent_after := last_sent; dispatched := false; ctl := Continue |}
  else
    let st := scan_results names (results f) in
    let now := now f in
    let '(evs, last_sent1, ran) :=
      if intrusion st then
        if cooldown_over last_sent now then
          let filename := evidence_filename (evidence_stamp f) in
          let saved :=
            if imwrite_raises f then [Print_evidence_failed]
            else [ImWrite filename; Print_evidence_saved filename] in
          let (sent, ts) := publish_alert (pub f) last_sent in
          (saved ++ sent, Some ts, true)
        else ([], last_sent, false)
      else ([], last_sent, false) in
    if Z.eqb (Z.land (key f) 255) 113 then
      {| events := evs ++ [Print_quit];
         last_sent_after := last_sent1; dispatched := ran; ctl := Break |}
    else
      {| events := evs;
         last_sent_after := last_sent1; dispatched := ran; ctl := Continue |}.

(** *** The loop and main (lines 97-222) *)

(** What arrives at the loop: a frame iteration, Ctrl+C, or some other
    exception raised inside the [try]. *)
Inductive loop_input :=
| Frame (f : frame_env)
| KeyboardInterrupt
| RuntimeError.

Inductive loop_end :=
| Quit
| Interrupted
| Failed
| Running (last_sent : option Q).

Fixpoint frame_loop (names : list (Z * str)) (last_sent : option Q)
  (inputs : list loop_input) : list event * loop_end :=
  match inputs with
  | [] => ([], Running last_sent)
  | KeyboardInterrupt :: _ => ([Print_ctrl_c], Interrupted)
  | RuntimeError :: _ => ([Print_runtime_error], Failed)
  | Frame f :: rest =>
    let r := frame_step names last_sent f in
    match ctl r with
    | Break => (events r, Quit)
    | Continue =>
      let (evs, e) := frame_loop names (last_sent_after r) rest in
      (events r ++ evs, e)
    end
  end.

(** The iterations of a run that only sees frames, up to the one that
    breaks out of the loop, each with its outcome. *)
Fixpoint run_frames (names : list (Z * str)) (last_sent : option Q)
  (frames : list frame_env) : list (frame_env * step_result) :=
  match frames with
  | [] => []
  | f :: rest =>
    let r := frame_step names last_sent f in
    (f, r) :: match ctl r with
              | Break => []
              | Continue => run_frames names (last_sent_after r) rest
              end
  end.

(** The clock readings [now] of the iterations that dispatched. *)
Definition dispatch_times (run : list (frame_env * step_result)) : list Q :=
  List.map (fun fr => now (fst fr))
           (List.filter (fun fr => dispatched (snd fr)) run).

(** What the environment does at start-up: whether
    [EVIDENCE_DIR.mkdir] (line 99) and [YOLO(MODEL_PATH)] (line 103)
    raise, both outside every [try]; whether [client.connect] raises; and
    whether the camera is open. *)
Record startup_env := {
  mkdir_raises : bool;
  model_load_raises : bool;
  connect_raises : bool;
  camera_opened : bool
}.

(** [main]: the events, and how the process ended if it did within the
    given inputs. *)
Definition main (start : startup_env) (names : list (Z * str))
  (inputs : list loop_input)
  : list event * option Process.termination :=
  if mkdir_raises start then
    ([], Some Process.Uncaught)
  else if model_load_raises start then
    ([Print_loading_model], Some Process.Uncaught)
  else if connect_raises start then
    ([Print_loading_model; Print_connect_failed], Some Process.Returns)
  else if negb (camera_opened start) then
    ([Print_loading_model; Print_camera_failed], Some Process.Returns)
  else
    let (evs, e) := frame_loop names None inputs in
    match e with
    | Running _ => (Print_loading_model :: evs, None)
    | _ => (Print_loading_model :: evs ++ [Release_all],
            Some Process.Returns)
    end.

End Publisher.

(** ** subscriber.py *)

Module Subscriber.

Import Json.

Inductive event :=
| Print_parse_failed
| Print_urgent (location ts : value)
| Winsound_beep (hz ms : Z)
| Print_bell
| Print_info (data : value)
| Print_connect_failed
| Print_listening
| Print_ctrl_c
| Disconnect
| Print_closed.

(** The literals of lines 77 and 78: "unknown time" and "unknown
    location" in Chinese (U+672A U+77E5 U+6642 U+9593 and
    U+672A U+77E5 U+4F4D U+7F6E). *)
Definition UNKNOWN_TIME : str := [26410; 30693; 26178; 38291]%N.
Definition UNKNOWN_LOCATION : str := [26410; 30693; 20301; 32622]%N.

(** *** beep (lines 30-39); [winsound] is there on Windows only. *)
Definition beep (winsound_ok : bool) : list event :=
  if winsound_ok then [Winsound_beep 1000 300] else [Print_bell].

(** *** on_message (lines 68-85) *)

(** Lines 70-78: the three ways they end. *)
Inductive decoded :=
| ParseFailed
| NoGetAttribute
| Fields (data : value) (status ts location : value).

Definition decode (lim : limits) (payload : string) : decoded :=
  match
    match Utf8.decode payload with
    | Some text => loads lim text
    | None => None
    end
  with
  | None => ParseFailed
  | Some data =>
    match data with
    | VDict d =>
      let status := dict_get d (txt "status") (VStr []) in
      let ts := dict_get d (txt "timestamp") (VStr UNKNOWN_TIME) in
      let location := dict_get d (txt "location") (VStr UNKNOWN_LOCATION) in
      Fields data status ts location
    | _ => NoGetAttribute
    end
  end.

(** [v == "INTRUSION"] *)
Definition is_intrusion (v : value) : bool :=
  match v with
  | VStr s => str_eqb s (txt "INTRUSION")
  | _ => false
  end.

(** Whether [print] can write the text that [{v}] puts into an f-string.
    Standard output is a UTF-8 stream with strict error handling (Python's
    default): a text goes in as it is and cannot be written when it holds
    a surrogate; every other value goes in as its [repr], which is plain
    text. *)
Definition can_print (v : value) : bool :=
  match v with
  | VStr s =>
    match Utf8.encode_list s with
    | Some _ => true
    | None => false
    end
  | _ => true
  end.

Inductive outcome :=
| Returned
| RaisedAttributeError
| RaisedUnicodeEncodeError.

(** The [print] of line 82 is outside every [try]: when it raises,
    nothing is written and [beep] is not reached.  The other two prints
    write an exception message and the [repr] of a dict, which are plain
    text. *)
Definition on_message (lim : limits) (winsound_ok : bool) (payload : string)
  : list event * outcome :=
  match decode lim payload with
  | ParseFailed => ([Print_parse_failed], Returned)
  | NoGetAttribute => ([], RaisedAttributeError)
  | Fields data status ts location =>
    if is_intrusion status then
      if can_print location && can_print ts then
        (Print_urgent location ts :: beep winsound_ok, Returned)
      else
        ([], RaisedUnicodeEncodeError)
    else
      ([Print_info data], Returned)
  end.

(** *** main (lines 93-110) *)

(** What arrives while [client.loop_forever()] runs: a message on the
    topic, or Ctrl+C. *)
Inductive loop_input :=
| Message (payload : string)
| KeyboardInterrupt.

Inductive loop_end :=
| Interrupted
| HandlerRaised
| Running.

(** [loop_forever] calls the handler for each message and lets an
    exception of the handler through. *)
Fixpoint loop_forever (lim : limits) (winsound_ok : bool)
  (inputs : list loop_input) : list event * loop_end :=
  match inputs with
  | [] => ([], Running)
  | KeyboardInterrupt :: _ => ([], Interrupted)
  | Message payload :: rest =>
    match on_message lim winsound_ok payload with
    | (evs, Returned) =>
      let (evs', e) := loop_forever lim winsound_ok rest in (evs ++ evs', e)
    | (evs, _) => (evs, HandlerRaised)
    end
  end.

Definition main (lim : limits) (connect_raises winsound_ok : bool)
  (inputs : list loop_input) : list event * option Process.termination :=
  if connect_raises then
    ([Print_connect_failed], Some (Process.SysExit 1))
  else
    let (evs, e) := loop_forever lim winsound_ok inputs in
    match e with
    | Running => (Print_listening :: evs, None)
    | Interrupted =>
      (Print_listening :: evs ++ [Print_ctrl_c; Disconnect; Print_closed],
       Some Process.Returns)
    | HandlerRaised =>
      (Print_listening :: evs ++ [Disconnect; Print_closed],
       Some Process.Uncaught)
    end.

End Subscriber.

(** ** The alert event and its two codec halves *)

Module Codec.

Import Json.

(** The alert payload as a record of its three texts. *)
Record AlertEvent := {
  status : str;
  timestamp : str;
  location : str
}.

(** The dict of lines 73-77 of publisher.py, for any event. *)
Definition payload_of (e : AlertEvent) : list (str * str) :=
  [(txt "status", status e);
   (txt "timestamp", timestamp e);
   (txt "location", location e)].

(** The bytes on the wire: [json.dumps] at line 80, then the UTF-8
    encoding the client applies to a text payload. *)
Definition encode (e : AlertEvent) : option string :=
  Utf8.encode (dumps (payload_of e)).

(** Lines 70-78 of subscriber.py, read as an event when the three values
    are texts. *)
Definition decode (lim : limits) (wire : string) : option AlertEvent :=
  match Subscriber.decode lim wire with
  | Subscriber.Fields _ (VStr s) (VStr t) (VStr l) =>
    Some {| status := s; timestamp := t; location := l |}
  | _ => None
  end.

Definition valid_event (e : AlertEvent) : bool :=
  forallb is_scalar (status e)
  && forallb is_scalar (timestamp e)
  && forallb is_scalar (location e).

End Codec.
(** ** Predicates of the specification *)

Module Spec.

Import Publisher Json.

(** *** Zone and scan *)

(** The condition under which one box turns the flag on, as the loop body
    tests it. *)
Definition qualifies (names : list (Z * str)) (b : Box) : Prop :=
  names_get names (py_int (cls b)) (txt "unknown") = txt "person"
  /\ (CONF_THRESHOLD <= conf b)%Q
  /\ point_in_rect (fst (box_center b)) (snd (box_center b))
                   ROI_X1 ROI_Y1 ROI_X2 ROI_Y2 = true.

(** The midpoint of the box as the detector reports it, following the
    words of the specification. *)
Definition spec_midpoint (b : Box) : Q * Q :=
  let '(bx1, by1, bx2, by2) := xyxy b in ((bx1 + bx2) / 2, (by1 + by2) / 2)%Q.

(** *** Cooldown *)

(** A frame that was read and that the scan flags. *)
Definition intruding (names : list (Z * str)) (f : frame_env) : Prop :=
  ret f = true /\ intrusion (scan_results names (results f)) = true.

(** The clock does not run backwards between line 181 and line 82. *)
Definition clock_ok (f : frame_env) : Prop := (now f <= sent_clock (pub f))%Q.

(** *** Listener *)

(** Line 71 alone: the bytes decoded and the text parsed; [None] when
    either call raises. *)
Definition parse (lim : limits) (payload : string) : option value :=
  match Utf8.decode payload with
  | Some text => loads lim text
  | None => None
  end.

Definition is_notification (e : Subscriber.event) : bool :=
  match e with Subscriber.Print_urgent _ _ => true | _ => false end.

Definition is_attention (e : Subscriber.event) : bool :=
  match e with
  | Subscriber.Winsound_beep _ _ | Subscriber.Print_bell => true
  | _ => false
  end.

Definition count (p : Subscriber.event -> bool)
  (evs : list Subscriber.event) : nat :=
  List.length (List.filter p evs).

(** The key [k] does not occur in the dict. *)
Definition missing (k : str) (d : list (str * value)) : Prop :=
  forall v, ~ In (k, v) d.

(** *** Codec *)

(** [p] holds of every number below [n]. *)
Fixpoint all_below (n : nat) (p : N -> bool) : bool :=
  match n with
  | O => true
  | S k => p (N.of_nat k) && all_below k p
  end.

(** A key and value that can be sent: both texts hold scalar values only. *)
Definition valid_pair (kv : str * str) : bool :=
  forallb is_scalar (fst kv) && forallb is_scalar (snd kv).

(** The item as [loads] returns it. *)
Definition lift (kv : str * str) : str * value := (fst kv, VStr (snd kv)).

(** One item of the output without its first quote. *)
Definition item_body (kv : str * str) : str :=
  flat_map escape_char (fst kv)
  ++ 34 :: 58 :: 32 :: 34 :: flat_map escape_char (snd kv) ++ [34].

Fixpoint items_body (items : list (str * str)) : str :=
  match items with
  | [] => []
  | kv :: rest =>
    match rest with
    | [] => item_body kv
    | _ :: _ => item_body kv ++ 44 :: 32 :: 34 :: items_body rest
    end
  end.

Definition ascii_only (t : str) : Prop := Forall (fun c => (c < 128)%N) t.

(** A scanner result leaves less text than it was given. *)
Definition shorter (res : option (value * str)) (s : str) : Prop :=
  forall v r, res = Some (v, r) -> (List.length r < List.length s)%nat.

End Spec.

(** ** Sample inputs *)

Module Samples.

Import Publisher.

(** The first entries of the detector's label table. *)
Definition coco_names : list (Z * str) :=
  [(0%Z, txt "person"); (1%Z, txt "bicycle"); (2%Z, txt "car")].

(** A person at confidence 0.9 whose box spans x = 99.5 .. 100.9 and
    y = 200 .. 300. *)
Definition edge_box : Box :=
  {| cls := 0; conf := 9 # 10; xyxy := (199 # 2, 200, 1009 # 10, 300)%Q |}.

(** A person at confidence 0.9 whose box has its centre at (300, 250). *)
Definition person_box : Box :=
  {| cls := 0; conf := 9 # 10; xyxy := (200, 150, 400, 350) |}.

(** An intruding frame read at clock [t]; [cv2.waitKey] returns -1 (no
    key), the publish call returns at [t] or raises. *)
Definition frame_at (t : Q) (raises : bool) : frame_env :=
  {| ret := true;
     results := [[person_box]];
     now := t;
     evidence_stamp := txt "20240101_000000";
     imwrite_raises := false;
     pub := {| payload_stamp := txt "2024-01-01 00:00:00";
               publish_raises := raises;
               sent_clock := t |};
     key := (-1)%Z |}.

(** Frames at t = 0, 2, 4 and 6, every publish call returning. *)
Definition scenario : list frame_env :=
  [frame_at 0 false; frame_at 2 false; frame_at 4 false; frame_at 6 false].

(** The limits of a default interpreter with a few frames in use. *)
Definition default_limits : Json.limits :=
  {| Json.spare_nesting := 990; Json.max_str_digits := 4300 |}.

(** A start-up in which every step succeeds. *)
Definition startup_ok : startup_env :=
  {| mkdir_raises := false; model_load_raises := false;
     connect_raises := false; camera_opened := true |}.

(** Sample payloads. *)
Definition dq : string := String "034"%char EmptyString.
Definition qs (s : string) : string := (dq ++ s ++ dq)%string.

Definition payload_intrusion : string :=
  ("{" ++ qs "status" ++ ":" ++ qs "INTRUSION" ++ ","
       ++ qs "location" ++ ":" ++ qs "Living Room" ++ ","
       ++ qs "timestamp" ++ ":" ++ qs "2024-01-01 00:00:00" ++ "}")%string.

Definition payload_ok : string :=
  ("{" ++ qs "status" ++ ":" ++ qs "OK" ++ "}")%string.

Definition payload_no_status : string :=
  ("{" ++ qs "timestamp" ++ ":" ++ qs "2024-01-01 00:00:00" ++ "}")%string.

(** An alert whose location is the escape of a lone surrogate, U+D800. *)
Definition payload_surrogate : string :=
  ("{" ++ qs "status" ++ ":" ++ qs "INTRUSION" ++ ","
       ++ qs "location" ++ ":" ++ qs "\ud800" ++ "}")%string.




End Samples.

(** ** The connection callbacks of publisher.py (lines 41-64) *)

Module PublisherClient.

Inductive event :=
| Print_connected
| Print_connect_failed (rc : Z)
| Print_unexpected_disconnect
| Reconnect
| Print_reconnect_failed.

(** [on_connect] (lines 46-51) *)
Definition on_connect (rc : Z) : list event :=
  if Z.eqb rc 0 then [Print_connected] else [Print_connect_failed rc].

(** [on_disconnect] (lines 53-60); [reconnect_raises] tells whether
    [client.reconnect()] raises. *)
Definition on_disconnect (rc : Z) (reconnect_raises : bool) : list event :=
  if negb (Z.eqb rc 0) then
    Print_unexpected_disconnect
    :: (if reconnect_raises then [Reconnect; Print_reconnect_failed]
        else [Reconnect])
  else [].

End PublisherClient.

(** ** The connection callbacks of subscriber.py (lines 42-66) *)

Module SubscriberClient.

Definition MQTT_TOPIC : str := txt "home/security/alert".

Inductive event :=
| Print_connected
| Subscribe (topic : str)
| Print_connect_failed (rc : Z)
| Print_unexpected_disconnect
| Reconnect
| Print_reconnected
| Print_reconnect_failed
| Sleep (seconds : Z).

(** [on_connect] (lines 47-53) *)
Definition on_connect (rc : Z) : list event :=
  if Z.eqb rc 0 then [Print_connected; Subscribe MQTT_TOPIC]
  else [Print_connect_failed rc].

(** The [while True] of lines 59-66. Each element of [attempts] tells
    whether one call of [client.reconnect()] raises; the result says
    whether the loop was left within these attempts. *)
Fixpoint reconnect_loop (attempts : list bool) : list event * bool :=
  match attempts with
  | [] => ([], false)
  | raises :: rest =>
    if raises then
      let (evs, left) := reconnect_loop rest in
      (Reconnect :: Print_reconnect_failed :: Sleep 5 :: evs, left)
    else ([Reconnect; Print_reconnected], true)
  end.

(** [on_disconnect] (lines 55-66): the events, and whether the handler
    returned within the given attempts. *)
Definition on_disconnect (rc : Z) (attempts : list bool)
  : list event * bool :=
  if negb (Z.eqb rc 0) then
    let (evs, left) := reconnect_loop attempts in
    (Print_unexpected_disconnect :: evs, left)
  else ([], true).

End SubscriberClient.

(** ** What is observed of a run *)

Module Observe.

Import Publisher.

(** The two colours of the zone frame (lines 131 and 167). *)
Definition red : color := (0, 0, 255)%Z.
Definition green : color := (0, 255, 0)%Z.

(** The clock readings of the iterations whose publish call returned. *)
Definition published_times (run : list (frame_env * step_result)) : list Q :=
  List.map (fun fr => now (fst fr))
    (List.filter
       (fun fr => dispatched (snd fr) && negb (publish_raises (pub (fst fr))))
       run).

(** Each element is followed only by elements at least
    [COOLDOWN_SECONDS] later. *)
Fixpoint spaced (times : list Q) : Prop :=
  match times with
  | [] => True
  | t :: rest =>
    Forall (fun u => (t + inject_Z COOLDOWN_SECONDS <= u)%Q) rest
    /\ spaced rest
  end.

(** The readings that fall in the window from [a] to [a + w], both ends
    included. *)
Definition in_window (a w : Q) (times : list Q) : list Q :=
  List.filter (fun u => Qle_bool a u && Qle_bool u (a + w)) times.



Definition is_release (e : event) : bool :=
  match e with Release_all => true | _ => false end.

Definition occurrences {A : Type} (p : A -> bool) (l : list A) : nat :=
  List.length (List.filter p l).

(** What one iteration prints when the frame cannot be read. *)
Definition read_failure_events : list event :=
  [Print_frame_read_failed; Sleep_half_second].

Definition is_reconnect (e : SubscriberClient.event) : bool :=
  match e with SubscriberClient.Reconnect => true | _ => false end.

(** The seconds slept by the handler. *)
Fixpoint slept (evs : list SubscriberClient.event) : Z :=
  match evs with
  | [] => 0
  | SubscriberClient.Sleep s :: rest => s + slept rest
  | _ :: rest => slept rest
  end.

Definition is_disconnect (e : Subscriber.event) : bool :=
  match e with Subscriber.Disconnect => true | _ => false end.

Definition is_publisher_reconnect (e : PublisherClient.event) : bool :=
  match e with PublisherClient.Reconnect => true | _ => false end.


End Observe.


(** Case analysis on one iteration of the frame loop. *)
Ltac step_cases names last f :=
  unfold Publisher.frame_step;
  destruct (Publisher.ret f); simpl;
  [ destruct (Publisher.intrusion
                (Publisher.scan_results names (Publisher.results f))); simpl;
    [ destruct (Publisher.cooldown_over last (Publisher.now f)); simpl;
      [ destruct (Publisher.publish_alert (Publisher.pub f) last)
          as [sent ts] eqn:Epub |]
    | ];
    destruct (Z.eqb (Z.land (Publisher.key f) 255) 113); simpl
  | ].

(** * Properties *)

(** ** Text *)

Module TextFacts.

Lemma str_eqb_eq (a b : str) : str_eqb a b = true <-> a = b.
Proof.
  revert b; induction a as [|x a IH]; intros [|y b]; simpl;
    try (split; [discriminate | congruence]); try tauto.
  rewrite andb_true_iff, N.eqb_eq, IH. split.
  - intros [-> ->]; reflexivity.
  - intros E; injection E; auto.
Qed.


Lemma str_eqb_neq (a b : str) : str_eqb a b = false <-> a <> b.
Proof.
  rewrite <- str_eqb_eq. destruct (str_eqb a b); split; congruence.
Qed.

End TextFacts.

(** ** The zone test and the detection scan *)

Module ZoneFacts.

Import Publisher Spec Samples TextFacts.
Open Scope Q_scope.

Lemma py_le_iff (a b : Q) : py_le a b = true <-> a <= b.
Proof. apply Qle_bool_iff. Qed.

Lemma py_lt_false_iff (a b : Q) : py_lt a b = false <-> b <= a.
Proof.
  unfold py_lt. rewrite negb_false_iff. apply Qle_bool_iff.
Qed.

Lemma point_in_rect_iff (cx cy : Q) (x1 y1 x2 y2 : Z) :
  point_in_rect cx cy x1 y1 x2 y2 = true <->
  (inject_Z x1 <= cx /\ cx <= inject_Z x2)
  /\ (inject_Z y1 <= cy /\ cy <= inject_Z y2).
Proof.
  unfold point_in_rect. rewrite !andb_true_iff, !py_le_iff. tauto.
Qed.

(** C3. For every point and every rectangle with [x1 <= x2] and
    [y1 <= y2], [point_in_rect] answers true exactly when
    [x1 <= cx <= x2] and [y1 <= cy <= y2]; every point of the four edges,
    the corners among them, is inside.  The function is a total map to
    [bool]: it has no error outcome. *)
Theorem point_in_rect_inclusive (cx cy : Q) (x1 y1 x2 y2 : Z) :
  (x1 <= x2)%Z -> (y1 <= y2)%Z ->
  (point_in_rect cx cy x1 y1 x2 y2 = true <->
   (inject_Z x1 <= cx /\ cx <= inject_Z x2)
   /\ (inject_Z y1 <= cy /\ cy <= inject_Z y2))
  /\ (forall c, inject_Z y1 <= c <= inject_Z y2 ->
        point_in_rect (inject_Z x1) c x1 y1 x2 y2 = true
        /\ point_in_rect (inject_Z x2) c x1 y1 x2 y2 = true)
  /\ (forall c, inject_Z x1 <= c <= inject_Z x2 ->
        point_in_rect c (inject_Z y1) x1 y1 x2 y2 = true
        /\ point_in_rect c (inject_Z y2) x1 y1 x2 y2 = true).
Proof.
  intros Hx Hy. rewrite Zle_Qle in Hx, Hy.
  split; [apply point_in_rect_iff|].
  split; intros c [Hlo Hhi]; split; apply point_in_rect_iff;
    repeat split; auto; apply Qle_refl.
Qed.

Lemma point_in_rect_inclusive_witness :
  (100 <= 500)%Z /\ (100 <= 400)%Z
  /\ point_in_rect 300 250 100 100 500 400 = true
  /\ point_in_rect 100 400 100 100 500 400 = true.
Proof.
  assert (Hx : (100 <= 500)%Z) by lia.
  assert (Hy : (100 <= 400)%Z) by lia.
  destruct (point_in_rect_inclusive 300 250 100 100 500 400 Hx Hy)
    as (Hiff & _ & Hedge).
  split; [exact Hx|]. split; [exact Hy|]. split.
  - apply Hiff. unfold Qle; simpl. lia.
  - apply (Hedge 100). unfold Qle; simpl. lia.
Defined.

Lemma box_step_intrusion names st b :
  intrusion (box_step names st b) = true <->
  intrusion st = true \/ qualifies names b.
Proof.
  unfold box_step, qualifies.
  destruct (str_eqb _ _) eqn:El; simpl.
  - apply str_eqb_eq in El.
    destruct (py_lt (conf b) CONF_THRESHOLD) eqn:Ec; simpl.
    + split; [tauto|]. intros [H|(_ & H & _)]; auto.
      apply py_lt_false_iff in H. congruence.
    + apply py_lt_false_iff in Ec.
      destruct (box_center b) as [cx cy]; simpl.
      destruct (point_in_rect cx cy _ _ _ _); simpl; split; auto;
        intros [H|(_ & _ & H)]; auto; discriminate.
  - apply str_eqb_neq in El. split; [tauto|].
    intros [H|(H & _)]; auto; contradiction.
Qed.

Lemma scan_boxes_intrusion names boxes st :
  intrusion (fold_left (box_step names) boxes st) = true <->
  intrusion st = true \/ exists b, In b boxes /\ qualifies names b.
Proof.
  revert st; induction boxes as [|b boxes IH]; intros st; simpl.
  - split; auto. intros [H|(b & [] & _)]; auto.
  - rewrite IH, box_step_intrusion. split.
    + intros [[H|H]|(b' & Hin & H)]; eauto.
    + intros [H|(b' & [->|Hin] & H)]; eauto.
Qed.

Lemma scan_results_from names results st :
  intrusion (fold_left (fun st result => fold_left (box_step names) result st)
                       results st) = true <->
  intrusion st = true
  \/ exists result b, In result results /\ In b result /\ qualifies names b.
Proof.
  revert st; induction results as [|r results IH]; intros st; simpl.
  - split; auto. intros [H|(r & b & [] & _)]; auto.
  - rewrite IH, scan_boxes_intrusion. split.
    + intros [[H|(b & Hin & H)]|(r' & b & Hr & Hin & H)]; eauto 7.
    + intros [H|(r' & b & [->|Hr] & Hin & H)]; eauto 7.
Qed.

(** C4 (as the code has it). A frame is flagged as intruding exactly when
    one of its detections has the label "person", a confidence of at
    least [CONF_THRESHOLD], and a box whose corners, each truncated to an
    integer, have their midpoint inside the zone.  A detection that fails
    the label or the confidence test never contributes. *)
Theorem scan_flags_intrusion_iff (names : list (Z * str))
  (results : list (list Box)) :
  (intrusion (scan_results names results) = true <->
   exists result b, In result results /\ In b result /\ qualifies names b)
  /\ (forall st b,
        names_get names (py_int (cls b)) (txt "unknown") <> txt "person"
        \/ conf b < CONF_THRESHOLD ->
        box_step names st b = st).
Proof.
  split.
  - unfold scan_results. rewrite scan_results_from. simpl. split; auto.
    intros [H|H]; [discriminate|auto].
  - intros st b H. unfold box_step.
    destruct H as [H|H].
    + apply str_eqb_neq in H. rewrite H. reflexivity.
    + assert (E : py_lt (conf b) CONF_THRESHOLD = true).
      { unfold py_lt. apply negb_true_iff.
        destruct (Qle_bool CONF_THRESHOLD (conf b)) eqn:E; auto.
        apply Qle_bool_iff in E. apply Qlt_not_le in H. contradiction. }
      rewrite E, orb_true_r. reflexivity.
Qed.

Lemma scan_flags_intrusion_iff_witness :
  intrusion (scan_results coco_names [[edge_box]; [person_box]]) = true
  /\ box_step coco_names scan_init
       {| cls := 2; conf := 9 # 10; xyxy := (200, 150, 400, 350) |}
     = scan_init.
Proof.
  destruct (scan_flags_intrusion_iff coco_names [[edge_box]; [person_box]])
    as [Hflag Hskip].
  split.
  - apply Hflag. exists [person_box], person_box.
    split; [right; left; reflexivity|].
    split; [left; reflexivity|].
    unfold qualifies. split; [reflexivity|]. split; [|reflexivity].
    unfold Qle; simpl; lia.
  - apply Hskip. left. discriminate.
Defined.

(** C4, counterexample. A person at confidence 0.9 whose box spans
    x = 99.5 .. 100.9: the midpoint of the reported box, (100.2, 250),
    is inside the zone, yet the frame is not flagged, because the corners
    are truncated to 99 and 100 first. *)
Lemma scan_misses_reported_midpoint :
  names_get coco_names (py_int (cls edge_box)) (txt "unknown") = txt "person"
  /\ CONF_THRESHOLD <= conf edge_box
  /\ point_in_rect (fst (spec_midpoint edge_box)) (snd (spec_midpoint edge_box))
                   ROI_X1 ROI_Y1 ROI_X2 ROI_Y2 = true
  /\ intrusion (scan_results coco_names [[edge_box]]) = false.
Proof.
  repeat split; try reflexivity.
  unfold Qle; simpl; lia.
Qed.

End ZoneFacts.

(** ** The cooldown and the dispatch *)

Module CooldownFacts.

Import Publisher Spec Samples.
Open Scope Q_scope.

Lemma cooldown_over_iff (last : option Q) (t_now : Q) :
  cooldown_over last t_now = true <->
  last = None
  \/ exists t, last = Some t /\ inject_Z COOLDOWN_SECONDS <= t_now - t.
Proof.
  destruct last as [t|]; simpl.
  - unfold py_le. rewrite Qle_bool_iff. split.
    + intros H. right. exists t. auto.
    + intros [H|(t' & E & H)]; [discriminate|]. injection E as ->. exact H.
  - split; auto.
Qed.

Lemma dispatched_iff names last f :
  dispatched (frame_step names last f) = true <->
  intruding names f /\ cooldown_over last (now f) = true.
Proof.
  unfold intruding. step_cases names last f; intuition congruence.
Qed.

Lemma not_dispatched_keeps names last f :
  dispatched (frame_step names last f) = false ->
  last_sent_after (frame_step names last f) = last.
Proof.
  step_cases names last f; intros H; try reflexivity; discriminate.
Qed.

Lemma dispatched_sets names last f :
  dispatched (frame_step names last f) = true ->
  last_sent_after (frame_step names last f)
  = Some (snd (publish_alert (pub f) last)).
Proof.
  step_cases names last f; intros H; try discriminate; reflexivity.
Qed.

Lemma ctl_by_key names last f :
  ret f = true ->
  ctl (frame_step names last f)
  = if Z.eqb (Z.land (key f) 255) 113 then Break else Continue.
Proof.
  intros Hr. unfold frame_step. rewrite Hr. simpl.
  destruct (intrusion _); [destruct (cooldown_over _ _);
    [destruct (publish_alert _ _)|]|];
    destruct (Z.eqb _ _); reflexivity.
Qed.

Lemma publish_alert_ok env last :
  publish_raises env = false ->
  publish_alert env last
  = ([MqttPublish MQTT_TOPIC (Json.dumps (alert_payload (payload_stamp env)));
      Print_alert_sent (alert_payload (payload_stamp env))],
     sent_clock env).
Proof. intros H. unfold publish_alert. rewrite H. reflexivity. Qed.

Lemma publish_alert_raises env last :
  publish_raises env = true ->
  publish_alert env last
  = ([Print_publish_failed], match last with Some t => t | None => 0 end).
Proof. intros H. unfold publish_alert. rewrite H. reflexivity. Qed.

(** The head of a run. *)
Lemma run_frames_cons names last frames f r tail :
  run_frames names last frames = (f, r) :: tail ->
  exists rest,
    frames = f :: rest /\ r = frame_step names last f
    /\ tail = match ctl r with
              | Break => []
              | Continue => run_frames names (last_sent_after r) rest
              end.
Proof.
  destruct frames as [|g rest]; simpl; [discriminate|].
  intros H; injection H as -> <- <-. exists rest; auto.
Qed.

(** Once a time stamp [t >= b] is stored, every later dispatch of the run
    happens at [b + COOLDOWN_SECONDS] or later. *)
Lemma later_dispatch_spaced names (b : Q) :
  forall before frames t f2 r2 after,
    b <= t ->
    Forall clock_ok frames ->
    run_frames names (Some t) frames = before ++ (f2, r2) :: after ->
    dispatched r2 = true ->
    b + inject_Z COOLDOWN_SECONDS <= now f2.
Proof.
  induction before as [|[g rg] before IH];
    intros frames t f2 r2 after Hb Hclk Hrun Hd; simpl in Hrun;
    apply run_frames_cons in Hrun; destruct Hrun as (rest & -> & -> & Htail).
  - apply dispatched_iff in Hd. destruct Hd as [_ Hd].
    apply cooldown_over_iff in Hd.
    destruct Hd as [Hd|(t' & E & Hd)]; [discriminate|].
    injection E as <-. lra.
  - inversion Hclk as [|? ? Hg Hrest]; subst.
    destruct (ctl (frame_step names (Some t) g));
      [|destruct before; discriminate].
    destruct (dispatched (frame_step names (Some t) g)) eqn:Edg.
    + pose proof (dispatched_sets _ _ _ Edg) as Es.
      apply dispatched_iff in Edg. destruct Edg as [_ Hc].
      apply cooldown_over_iff in Hc.
      destruct Hc as [Hc|(t' & E & Hc)]; [discriminate|].
      injection E as <-.
      rewrite Es in Htail. symmetry in Htail.
      eapply IH; [| exact Hrest | exact Htail | exact Hd].
      unfold publish_alert. unfold clock_ok in Hg.
      change (inject_Z COOLDOWN_SECONDS) with 5 in Hc.
      destruct (publish_raises (pub g)); simpl; lra.
    + rewrite (not_dispatched_keeps _ _ _ Edg) in Htail. symmetry in Htail.
      eapply IH; [exact Hb | exact Hrest | exact Htail | exact Hd].
Qed.

Lemma not_intruding_not_dispatched names last f :
  ~ intruding names f -> dispatched (frame_step names last f) = false.
Proof.
  intros H. destruct (dispatched _) eqn:E; auto.
  apply dispatched_iff in E. tauto.
Qed.

Lemma first_intrusion_dispatched names :
  forall before frames f r after,
    run_frames names None frames = before ++ (f, r) :: after ->
    Forall (fun fr => ~ intruding names (fst fr)) before ->
    intruding names f ->
    dispatched r = true.
Proof.
  induction before as [|[g rg] before IH];
    intros frames f r after Hrun Hpre Hf; simpl in Hrun;
    apply run_frames_cons in Hrun; destruct Hrun as (rest & -> & -> & Htail).
  - apply dispatched_iff. split; auto.
  - inversion Hpre as [|? ? Hg Hrest]; subst. simpl in Hg.
    destruct (ctl (frame_step names None g));
      [|destruct before; discriminate].
    rewrite (not_dispatched_keeps _ _ _
               (not_intruding_not_dispatched names None g Hg)) in Htail.
    symmetry in Htail. eapply IH; eauto.
Qed.

Lemma successful_dispatch_spaces names :
  forall before last frames f1 r1 between f2 r2 after,
    Forall clock_ok frames ->
    run_frames names last frames
    = before ++ (f1, r1) :: between ++ (f2, r2) :: after ->
    dispatched r1 = true ->
    publish_raises (pub f1) = false ->
    dispatched r2 = true ->
    now f1 + inject_Z COOLDOWN_SECONDS <= now f2.
Proof.
  induction before as [|[g rg] before IH];
    intros last frames f1 r1 between f2 r2 after Hclk Hrun H1 Hok H2;
    simpl in Hrun; apply run_frames_cons in Hrun;
    destruct Hrun as (rest & -> & -> & Htail);
    inversion Hclk as [|? ? Hhd Hrest]; subst.
  - destruct (ctl (frame_step names last f1));
      [|destruct between; discriminate].
    rewrite (dispatched_sets _ _ _ H1), (publish_alert_ok _ _ Hok) in Htail.
    simpl in Htail. symmetry in Htail.
    eapply later_dispatch_spaced;
      [exact Hhd | exact Hrest | exact Htail | exact H2].
  - destruct (ctl (frame_step names last g));
      [|destruct before; discriminate].
    symmetry in Htail. eapply IH; eauto.
Qed.

(** C1 (as the code has it). With [names] the detector's label table:
    an intruding frame is dispatched exactly when [last_sent] is unset or
    [now - last_sent >= COOLDOWN_SECONDS]; an iteration that does not
    dispatch leaves [last_sent] as it was; the first intruding frame after
    start-up is dispatched; and, when the clock does not run backwards
    between the gate and the return of the publish call, a dispatch that
    follows a dispatch whose publish call returned normally comes at least
    [COOLDOWN_SECONDS] after it. *)
Theorem cooldown_gate_rule (names : list (Z * str)) :
  (forall last f, intruding names f ->
     (dispatched (frame_step names last f) = true <->
      last = None
      \/ exists t, last = Some t
                   /\ inject_Z COOLDOWN_SECONDS <= now f - t))
  /\ (forall last f,
        dispatched (frame_step names last f) = false ->
        last_sent_after (frame_step names last f) = last)
  /\ (forall frames before f r after,
        run_frames names None frames = before ++ (f, r) :: after ->
        Forall (fun fr => ~ intruding names (fst fr)) before ->
        intruding names f ->
        dispatched r = true)
  /\ (forall last frames before f1 r1 between f2 r2 after,
        Forall clock_ok frames ->
        run_frames names last frames
        = before ++ (f1, r1) :: between ++ (f2, r2) :: after ->
        dispatched r1 = true ->
        publish_raises (pub f1) = false ->
        dispatched r2 = true ->
        now f1 + inject_Z COOLDOWN_SECONDS <= now f2).
Proof.
  split; [|split; [|split]].
  - intros last f Hf. rewrite dispatched_iff, cooldown_over_iff. tauto.
  - apply not_dispatched_keeps.
  - intros frames before f r after. apply first_intrusion_dispatched.
  - intros last frames before f1 r1 between f2 r2 after.
    apply successful_dispatch_spaces.
Qed.

Lemma frame_at_intruding t raises :
  intruding coco_names (frame_at t raises).
Proof. split; reflexivity. Qed.

Lemma cooldown_gate_rule_witness :
  dispatch_times (run_frames coco_names None scenario) = [0; 6]
  /\ now (frame_at 0 false) + inject_Z COOLDOWN_SECONDS
     <= now (frame_at 6 false).
Proof.
  split; [reflexivity|].
  destruct (cooldown_gate_rule coco_names) as (_ & _ & _ & Hspaced).
  eapply (Hspaced None scenario []
            (frame_at 0 false) _
            [(frame_at 2 false, _); (frame_at 4 false, _)]
            (frame_at 6 false) _ []).
  - repeat constructor; unfold clock_ok; simpl; apply Qle_refl.
  - reflexivity.
  - reflexivity.
  - reflexivity.
  - reflexivity.
Defined.

(** C1, counterexample. Two intruding frames one second apart, the publish
    call of the first one raising: both are dispatched. *)
Lemma failed_publish_reopens_gate :
  dispatch_times
    (run_frames coco_names None [frame_at 10 true; frame_at 11 false])
  = [10; 11]
  /\ 11 - 10 < inject_Z COOLDOWN_SECONDS.
Proof. split; reflexivity. Qed.

(** C2 (as the code has it). In every iteration that dispatches, whether
    or not the evidence write raised: when the publish call returns,
    [last_sent] becomes the clock reading taken after it; when the publish
    call raises, the failure is printed and [last_sent] is not advanced
    (it keeps its value, or becomes 0.0 if it was unset); in both cases
    the iteration ends normally and the loop goes on unless the quit key
    was pressed. *)
Theorem dispatch_updates_last_sent (names : list (Z * str))
  (last : option Q) (f : frame_env) :
  dispatched (frame_step names last f) = true ->
  (publish_raises (pub f) = false ->
   last_sent_after (frame_step names last f) = Some (sent_clock (pub f)))
  /\ (publish_raises (pub f) = true ->
      In Print_publish_failed (events (frame_step names last f))
      /\ last_sent_after (frame_step names last f)
         = Some (match last with Some t => t | None => 0 end))
  /\ ctl (frame_step names last f)
     = (if Z.eqb (Z.land (key f) 255) 113 then Break else Continue).
Proof.
  intros Hd. pose proof (dispatched_sets _ _ _ Hd) as Hs.
  apply dispatched_iff in Hd. destruct Hd as [[Hret Hintr] Hc].
  split; [|split].
  - intros Hok. rewrite Hs, (publish_alert_ok _ _ Hok). reflexivity.
  - intros Hraise. split.
    + unfold frame_step. rewrite Hret, Hintr, Hc. simpl.
      rewrite (publish_alert_raises _ _ Hraise).
      destruct (Z.eqb _ _); simpl; rewrite !in_app_iff; simpl; auto.
    + rewrite Hs, (publish_alert_raises _ _ Hraise). reflexivity.
  - apply ctl_by_key. exact Hret.
Qed.

Lemma dispatch_updates_last_sent_witness :
  last_sent_after
    (frame_step coco_names (Some 100) (frame_at 106 false))
  = Some 106
  /\ ctl (frame_step coco_names (Some 100) (frame_at 106 false))
     = Continue.
Proof.
  destruct (dispatch_updates_last_sent coco_names (Some 100)
              (frame_at 106 false) eq_refl) as (Hok & _ & Hctl).
  split; [apply Hok; reflexivity | exact Hctl].
Defined.

(** C2, counterexample. [last_sent] is 100, an intruding frame arrives at
    106 and its publish call raises: the iteration dispatches, [last_sent]
    is still 100 afterwards, and the frame that follows half a second
    later is dispatched as well. *)
Lemma failed_publish_keeps_last_sent :
  dispatched (frame_step coco_names (Some 100) (frame_at 106 true))
  = true
  /\ last_sent_after
       (frame_step coco_names (Some 100) (frame_at 106 true))
     = Some 100
  /\ dispatch_times
       (run_frames coco_names (Some 100)
          [frame_at 106 true; frame_at (213 # 2) true])
     = [106; 213 # 2].
Proof. repeat split. Qed.

(** While the publish call keeps raising, [last_sent] is unset or 0.0, and
    every intruding frame read at a clock of at least [COOLDOWN_SECONDS]
    is dispatched and leaves 0.0 behind. *)
Lemma failing_run_dispatches names :
  forall before last frames f r after,
    last = None \/ last = Some 0 ->
    run_frames names last frames = before ++ (f, r) :: after ->
    Forall (fun g => publish_raises (pub g) = true
                     /\ inject_Z COOLDOWN_SECONDS <= now g) frames ->
    intruding names f ->
    dispatched r = true /\ last_sent_after r = Some 0.
Proof.
  assert (Hgate : forall last g,
             last = None \/ last = Some 0 ->
             inject_Z COOLDOWN_SECONDS <= now g ->
             cooldown_over last (now g) = true).
  { intros last g [->| ->] Hn; [reflexivity|].
    apply cooldown_over_iff. right. exists 0. split; auto.
    change (inject_Z COOLDOWN_SECONDS) with 5 in *. lra. }
  assert (Hstay : forall last g,
             last = None \/ last = Some 0 ->
             publish_raises (pub g) = true ->
             last_sent_after (frame_step names last g) = None
             \/ last_sent_after (frame_step names last g) = Some 0).
  { intros last g Hl Hp.
    destruct (dispatched (frame_step names last g)) eqn:E.
    - right. rewrite (dispatched_sets _ _ _ E), (publish_alert_raises _ _ Hp).
      destruct Hl as [->| ->]; reflexivity.
    - rewrite (not_dispatched_keeps _ _ _ E). exact Hl. }
  induction before as [|[g rg] before IH];
    intros last frames f r after Hl Hrun Hall Hf; simpl in Hrun;
    apply run_frames_cons in Hrun; destruct Hrun as (rest & -> & -> & Htail);
    inversion Hall as [|? ? [Hp Hn] Hrest]; subst.
  - assert (Hd : dispatched (frame_step names last f) = true).
    { apply dispatched_iff. split; auto. }
    split; [exact Hd|].
    rewrite (dispatched_sets _ _ _ Hd), (publish_alert_raises _ _ Hp).
    destruct Hl as [->| ->]; reflexivity.
  - destruct (ctl (frame_step names last g));
      [|destruct before; discriminate].
    symmetry in Htail.
    eapply IH; [apply Hstay; [exact Hl | exact Hp]
               | exact Htail | exact Hrest | exact Hf].
Qed.

(** C10. When the publish call raises, [publish_alert] returns the
    previous time stamp if there is one and 0.0 if there is none; so a
    first dispatch whose publish call raises takes [last_sent] from unset
    to 0.0; and from then on, while publishing keeps raising, every
    intruding frame read at a clock of at least [COOLDOWN_SECONDS] (any
    Unix time is) is dispatched, through the elapsed-time test on the
    stored 0.0 and not through the unset test. *)
Theorem failed_publish_returns_previous_or_zero (names : list (Z * str)) :
  (forall env t, publish_raises env = true ->
     snd (publish_alert env (Some t)) = t)
  /\ (forall env, publish_raises env = true ->
        snd (publish_alert env None) = 0)
  /\ (forall f, intruding names f -> publish_raises (pub f) = true ->
        dispatched (frame_step names None f) = true
        /\ last_sent_after (frame_step names None f) = Some 0)
  /\ (forall f, intruding names f ->
        inject_Z COOLDOWN_SECONDS <= now f ->
        dispatched (frame_step names (Some 0) f) = true
        /\ Some 0 <> (None : option Q)
        /\ py_le (inject_Z COOLDOWN_SECONDS) (now f - 0) = true)
  /\ (forall frames before f r after,
        run_frames names (Some 0) frames = before ++ (f, r) :: after ->
        Forall (fun g => publish_raises (pub g) = true
                         /\ inject_Z COOLDOWN_SECONDS <= now g) frames ->
        intruding names f ->
        dispatched r = true /\ last_sent_after r = Some 0).
Proof.
  split; [|split; [|split; [|split]]].
  - intros env t H. rewrite (publish_alert_raises _ _ H). reflexivity.
  - intros env H. rewrite (publish_alert_raises _ _ H). reflexivity.
  - intros f Hf Hp.
    assert (Hd : dispatched (frame_step names None f) = true).
    { apply dispatched_iff. split; auto. }
    split; [exact Hd|].
    rewrite (dispatched_sets _ _ _ Hd), (publish_alert_raises _ _ Hp).
    reflexivity.
  - intros f Hf Hn.
    assert (Hc : py_le (inject_Z COOLDOWN_SECONDS) (now f - 0) = true).
    { apply ZoneFacts.py_le_iff.
      change (inject_Z COOLDOWN_SECONDS) with 5 in *. lra. }
    split; [|split]; [|discriminate|exact Hc].
    apply dispatched_iff. split; auto.
  - intros frames before f r after Hrun Hall Hf.
    eapply failing_run_dispatches; eauto.
Qed.

(** Frames at Unix times 1700000000, +1 and +2, every publish call
    raising: all three are dispatched. *)
Lemma failed_publish_returns_previous_or_zero_witness :
  snd (publish_alert (pub (frame_at 1700000000 true)) (Some 42)) = 42
  /\ last_sent_after
       (frame_step coco_names None (frame_at 1700000000 true))
     = Some 0
  /\ dispatched
       (frame_step coco_names (Some 0) (frame_at 1700000001 true))
     = true
  /\ dispatch_times
       (run_frames coco_names None
          [frame_at 1700000000 true; frame_at 1700000001 true;
           frame_at 1700000002 true])
     = [1700000000; 1700000001; 1700000002].
Proof.
  destruct (failed_publish_returns_previous_or_zero coco_names)
    as (Hprev & _ & Hfirst & Hlater & _).
  split; [|split; [|split]].
  - apply Hprev. reflexivity.
  - apply Hfirst; [apply frame_at_intruding | reflexivity].
  - apply Hlater; [apply frame_at_intruding|].
    unfold Qle; simpl; lia.
  - reflexivity.
Defined.

End CooldownFacts.

(** ** The JSON text of a dict of texts, and UTF-8 on ASCII *)

Module JsonFacts.

Import Json Spec.
Open Scope N_scope.

Lemma all_below_spec (n : nat) (p : N -> bool) :
  all_below n p = true -> forall x, x < N.of_nat n -> p x = true.
Proof.
  induction n as [|k IH]; intros H x Hx; [lia|].
  simpl in H. apply andb_true_iff in H. destruct H as [Hk Hrest].
  destruct (N.eq_dec x (N.of_nat k)) as [->|Hne]; auto.
  apply IH; auto. lia.
Qed.

Lemma hexval_hexdigit (d : N) : d < 16 -> hexval (hexdigit d) = Some d.
Proof.
  intros H.
  pose proof (all_below_spec 16
                (fun d => match hexval (hexdigit d) with
                          | Some d' => d' =? d
                          | None => false
                          end) eq_refl d H) as E.
  simpl in E. destruct (hexval (hexdigit d)); [|discriminate].
  apply N.eqb_eq in E. congruence.
Qed.

Lemma decode_hex4 (n : N) :
  n < 65536 ->
  decode_uXXXX (hexdigit ((n / 4096) mod 16)) (hexdigit ((n / 256) mod 16))
               (hexdigit ((n / 16) mod 16)) (hexdigit (n mod 16))
  = Some n.
Proof.
  intros H. unfold decode_uXXXX.
  rewrite !hexval_hexdigit by (apply N.mod_lt; discriminate).
  f_equal. zify. Z.to_euclidean_division_equations. lia.
Qed.

Lemma lor_shiftl_low (h l k : N) :
  l < 2 ^ k -> N.lor (N.shiftl h k) l = h * 2 ^ k + l.
Proof.
  intros Hl.
  assert (Hland : N.land (N.shiftl h k) l = 0).
  { apply N.bits_inj. intros m. rewrite N.land_spec, N.bits_0.
    destruct (N.lt_ge_cases m k) as [Hm|Hm].
    - rewrite N.shiftl_spec_low by exact Hm. reflexivity.
    - rewrite <- (N.mod_small l (2 ^ k)) by exact Hl.
      rewrite N.mod_pow2_bits_high by exact Hm. apply andb_false_r. }
  rewrite <- N.lxor_lor by exact Hland.
  rewrite <- N.add_nocarry_lxor by exact Hland.
  rewrite N.shiftl_mul_pow2. reflexivity.
Qed.

Lemma high_surrogate_value (n : N) :
  n < 1048576 ->
  N.lor 55296 (N.land (N.shiftr n 10) 1023) = 55296 + n / 1024.
Proof.
  intros H.
  change 1023 with (N.ones 10). rewrite N.land_ones, N.shiftr_div_pow2.
  change (2 ^ 10) with 1024.
  assert (Hq : n / 1024 < 1024).
  { apply N.Div0.div_lt_upper_bound. exact H. }
  rewrite N.mod_small by exact Hq.
  change 55296 with (N.shiftl 54 10) at 1.
  rewrite lor_shiftl_low by exact Hq. reflexivity.
Qed.

Lemma low_surrogate_value (n : N) :
  N.lor 56320 (N.land n 1023) = 56320 + n mod 1024.
Proof.
  change 1023 with (N.ones 10). rewrite N.land_ones.
  change (2 ^ 10) with 1024.
  change 56320 with (N.shiftl 55 10) at 1.
  rewrite lor_shiftl_low by (apply N.mod_lt; discriminate). reflexivity.
Qed.

Lemma join_surrogates_value (n : N) :
  n < 1048576 ->
  join_surrogates (55296 + n / 1024) (56320 + n mod 1024) = 65536 + n.
Proof.
  intros H. unfold join_surrogates.
  assert (Hsub : forall a b, a + b - a = b) by (intros; lia).
  rewrite !Hsub.
  rewrite lor_shiftl_low by (apply N.mod_lt; discriminate).
  change (2 ^ 10) with 1024.
  f_equal. zify. Z.to_euclidean_division_equations. lia.
Qed.

Lemma scanstring_plain c r :
  (c =? 34) = false -> (c =? 92) = false -> (c <? 32) = false ->
  scanstring (c :: r) = push c (scanstring r).
Proof. intros H1 H2 H3. cbn [scanstring]. rewrite H1, H2, H3. reflexivity. Qed.

Lemma scanstring_backslash e ch r :
  (e =? 117) = false -> backslash e = Some ch ->
  scanstring (92 :: e :: r) = push ch (scanstring r).
Proof.
  intros H1 H2. cbn [scanstring].
  change (92 =? 34) with false. change (92 =? 92) with true. cbv iota.
  rewrite H1, H2. reflexivity.
Qed.

Lemma scanstring_u n r :
  n < 65536 -> is_high_surrogate n = false ->
  scanstring (u_escape n ++ r) = push n (scanstring r).
Proof.
  intros Hn Hs. unfold u_escape, hex4. cbn [app scanstring].
  change (92 =? 34) with false. change (92 =? 92) with true.
  change (117 =? 117) with true. cbv iota.
  rewrite decode_hex4 by exact Hn. rewrite Hs. reflexivity.
Qed.

Lemma scanstring_pair hi lo r :
  hi < 65536 -> lo < 65536 ->
  is_high_surrogate hi = true -> is_low_surrogate lo = true ->
  scanstring (u_escape hi ++ u_escape lo ++ r)
  = push (join_surrogates hi lo) (scanstring r).
Proof.
  intros Hhi Hlo Hh Hl. unfold u_escape, hex4. cbn [app scanstring].
  change (92 =? 34) with false. change (92 =? 92) with true.
  change (117 =? 117) with true. cbv iota.
  rewrite decode_hex4 by exact Hhi. rewrite Hh.
  change ((92 =? 92) && (117 =? 117)) with true. cbv iota.
  rewrite decode_hex4 by exact Hlo. rewrite Hl. reflexivity.
Qed.

Lemma scanstring_escape_char c r :
  is_scalar c = true ->
  scanstring (escape_char c ++ r) = push c (scanstring r).
Proof.
  intros Hc. unfold is_scalar in Hc.
  apply andb_true_iff in Hc. destruct Hc as [Hmax Hsur].
  apply N.leb_le in Hmax. apply negb_true_iff in Hsur.
  unfold escape_char.
  destruct (c =? 92) eqn:E92;
    [apply N.eqb_eq in E92; subst; apply scanstring_backslash; reflexivity|].
  destruct (c =? 34) eqn:E34;
    [apply N.eqb_eq in E34; subst; apply scanstring_backslash; reflexivity|].
  destruct (c =? 8) eqn:E8;
    [apply N.eqb_eq in E8; subst; apply scanstring_backslash; reflexivity|].
  destruct (c =? 12) eqn:E12;
    [apply N.eqb_eq in E12; subst; apply scanstring_backslash; reflexivity|].
  destruct (c =? 10) eqn:E10;
    [apply N.eqb_eq in E10; subst; apply scanstring_backslash; reflexivity|].
  destruct (c =? 13) eqn:E13;
    [apply N.eqb_eq in E13; subst; apply scanstring_backslash; reflexivity|].
  destruct (c =? 9) eqn:E9;
    [apply N.eqb_eq in E9; subst; apply scanstring_backslash; reflexivity|].
  destruct ((32 <=? c) && (c <=? 126)) eqn:Eprint.
  - apply andb_true_iff in Eprint. destruct Eprint as [Hlo _].
    apply N.leb_le in Hlo.
    apply scanstring_plain; auto. apply N.ltb_ge. exact Hlo.
  - destruct (c <? 65536) eqn:Ebmp.
    + apply N.ltb_lt in Ebmp. apply scanstring_u; [exact Ebmp|].
      unfold is_high_surrogate.
      apply andb_false_iff in Hsur. apply andb_false_iff.
      destruct Hsur as [H|H]; [left; exact H|].
      right. apply N.leb_gt in H. apply N.leb_gt. lia.
    + apply N.ltb_ge in Ebmp. cbv zeta.
      assert (Hn : c - 65536 < 1048576) by lia.
      rewrite (high_surrogate_value _ Hn), low_surrogate_value.
      assert (Hq : (c - 65536) / 1024 < 1024)
        by (apply N.Div0.div_lt_upper_bound; exact Hn).
      assert (Hr : (c - 65536) mod 1024 < 1024)
        by (apply N.mod_lt; discriminate).
      rewrite <- app_assoc.
      rewrite scanstring_pair.
      * rewrite (join_surrogates_value _ Hn).
        replace (65536 + (c - 65536)) with c by lia. reflexivity.
      * clear - Hq. revert Hq. generalize ((c - 65536) / 1024). intros; lia.
      * clear - Hr. revert Hr. generalize ((c - 65536) mod 1024). intros; lia.
      * clear - Hq. revert Hq. generalize ((c - 65536) / 1024). intros.
        unfold is_high_surrogate. apply andb_true_iff.
        split; apply N.leb_le; lia.
      * clear - Hr. revert Hr. generalize ((c - 65536) mod 1024). intros.
        unfold is_low_surrogate. apply andb_true_iff.
        split; apply N.leb_le; lia.
Qed.

Lemma scanstring_escaped (s : str) (r : str) :
  forallb is_scalar s = true ->
  scanstring (flat_map escape_char s ++ 34 :: r) = Some (s, r).
Proof.
  induction s as [|c s IH]; intros H; simpl in H.
  - reflexivity.
  - apply andb_true_iff in H. destruct H as [Hc Hs].
    cbn [flat_map]. rewrite <- app_assoc.
    rewrite (scanstring_escape_char _ _ Hc), (IH Hs). reflexivity.
Qed.

Lemma dumps_item_body kv : dumps_item kv = 34 :: item_body kv.
Proof.
  unfold dumps_item, item_body, encode_basestring_ascii. simpl.
  rewrite <- !app_assoc. reflexivity.
Qed.

Lemma join_items_body kv items :
  join_items (List.map dumps_item (kv :: items))
  = 34 :: items_body (kv :: items).
Proof.
  revert kv; induction items as [|kv' items IH]; intros kv.
  - simpl. apply dumps_item_body.
  - change (join_items (List.map dumps_item (kv :: kv' :: items)))
      with (dumps_item kv ++ [44; 32]
            ++ join_items (List.map dumps_item (kv' :: items))).
    rewrite IH, dumps_item_body. reflexivity.
Qed.

Lemma scan_item kv tail :
  valid_pair kv = true ->
  scanstring (item_body kv ++ tail)
  = Some (fst kv, 58 :: 32 :: 34 :: flat_map escape_char (snd kv) ++ 34 :: tail)
  /\ scanstring (flat_map escape_char (snd kv) ++ 34 :: tail)
     = Some (snd kv, tail).
Proof.
  intros H. apply andb_true_iff in H. destruct H as [Hk Hv]. split.
  - unfold item_body. rewrite <- app_assoc. simpl app.
    rewrite <- app_assoc. simpl app.
    apply scanstring_escaped. exact Hk.
  - apply scanstring_escaped. exact Hv.
Qed.

Lemma scan_once_string fuel lim depth body content rest :
  (0 < fuel)%nat ->
  scanstring body = Some (content, rest) ->
  scan_once fuel lim depth (34 :: body) = Some (VStr content, rest).
Proof.
  intros Hfuel H. destruct fuel as [|fuel]; [lia|].
  cbn [scan_once]. change (34 =? 34) with true. cbv iota.
  rewrite H. reflexivity.
Qed.

Lemma object_loop_items lim depth :
  forall items kv fuel pairs tail,
    forallb valid_pair (kv :: items) = true ->
    (S (List.length items) < fuel)%nat ->
    object_loop fuel lim depth (items_body (kv :: items) ++ 125 :: tail) pairs
    = Some (VDict (dict_of_pairs (pairs ++ List.map lift (kv :: items))),
            tail).
Proof.
  induction items as [|kv' items IH]; intros kv fuel pairs tail Hv Hfuel;
    simpl in Hv; apply andb_true_iff in Hv; destruct Hv as [Hkv Hrest];
    (destruct fuel as [|fuel]; [simpl in Hfuel; lia|]).
  - destruct (scan_item kv (125 :: tail) Hkv) as [Hkey Hval].
    cbn [items_body object_loop]. rewrite Hkey.
    cbn [skip_ws is_ws N.eqb Pos.eqb orb].
    rewrite (scan_once_string fuel lim depth _ _ _
               ltac:(simpl in Hfuel; lia) Hval).
    reflexivity.
  - set (next := 44 :: 32 :: 34 :: items_body (kv' :: items) ++ 125 :: tail).
    destruct (scan_item kv next Hkv) as [Hkey Hval].
    change (items_body (kv :: kv' :: items) ++ 125 :: tail)
      with ((item_body kv ++ 44 :: 32 :: 34 :: items_body (kv' :: items))
            ++ 125 :: tail).
    rewrite <- app_assoc. change ((44 :: 32 :: 34 :: items_body (kv' :: items))
                                  ++ 125 :: tail) with next.
    cbn [object_loop]. rewrite Hkey.
    cbn [skip_ws is_ws N.eqb Pos.eqb orb].
    rewrite (scan_once_string fuel lim depth _ _ _
               ltac:(simpl in Hfuel; lia) Hval).
    unfold next. cbn [skip_ws is_ws N.eqb Pos.eqb orb].
    rewrite IH; [| exact Hrest | simpl in *; lia].
    rewrite <- app_assoc. reflexivity.
Qed.

Lemma item_body_length kv : (5 <= List.length (item_body kv))%nat.
Proof.
  unfold item_body. rewrite length_app. simpl. rewrite length_app. simpl. lia.
Qed.

Lemma items_body_length items kv :
  (S (List.length items) <= List.length (items_body (kv :: items)))%nat.
Proof.
  revert kv; induction items as [|kv' items IH]; intros kv.
  - simpl. pose proof (item_body_length kv). lia.
  - change (items_body (kv :: kv' :: items))
      with (item_body kv ++ 44 :: 32 :: 34 :: items_body (kv' :: items)).
    rewrite length_app. cbn [List.length].
    specialize (IH kv'). lia.
Qed.

Lemma dumps_body kv items :
  dumps (kv :: items) = 123 :: 34 :: items_body (kv :: items) ++ [125].
Proof. unfold dumps. rewrite join_items_body. reflexivity. Qed.

(** [json.loads(json.dumps(d))] gives [d] back, each value as a [str]. *)
Lemma loads_dumps (lim : limits) (d : list (str * str)) :
  forallb valid_pair d = true ->
  loads lim (dumps d) = Some (VDict (dict_of_pairs (List.map lift d))).
Proof.
  intros Hv. destruct d as [|kv items]; [reflexivity|].
  rewrite dumps_body. unfold loads. cbv beta iota.
  pose proof (items_body_length items kv) as Hlen.
  set (s := 123 :: 34 :: items_body (kv :: items) ++ [125]).
  assert (Hs : (S (S (List.length items)) < 2 * List.length s + 2)%nat).
  { unfold s. cbn [List.length]. rewrite length_app. lia. }
  remember (2 * List.length s + 2)%nat as fuel eqn:Efuel. unfold s.
  destruct fuel as [|fuel]; [lia|].
  cbn [skip_ws is_ws N.eqb Pos.eqb orb scan_once].
  rewrite (object_loop_items lim (spare_nesting lim) items kv fuel [] [] Hv)
    by lia.
  reflexivity.
Qed.

(** *** The output of [dumps] is ASCII, and ASCII passes UTF-8 unchanged *)

Lemma hexdigit_ascii d : hexdigit (d mod 16) < 128.
Proof.
  assert (H : d mod 16 < 16) by (apply N.mod_lt; discriminate).
  revert H. generalize (d mod 16). intros x Hx. unfold hexdigit.
  destruct (x <? 10); lia.
Qed.

Lemma u_escape_ascii n : ascii_only (u_escape n).
Proof.
  unfold ascii_only, u_escape, hex4.
  repeat constructor; try apply hexdigit_ascii.
Qed.

Lemma escape_char_ascii c : ascii_only (escape_char c).
Proof.
  unfold escape_char.
  repeat match goal with
         | |- ascii_only (if ?b then _ else _) => destruct b eqn:?
         end;
    try (repeat constructor; fail).
  - match goal with
    | H : (_ <=? c) && (c <=? 126) = true |- _ =>
      apply andb_true_iff in H; destruct H as [_ H]; apply N.leb_le in H
    end.
    repeat constructor. lia.
  - apply u_escape_ascii.
  - cbv zeta. apply Forall_app. split; apply u_escape_ascii.
Qed.

Lemma encode_basestring_ascii_ascii s : ascii_only (encode_basestring_ascii s).
Proof.
  unfold encode_basestring_ascii. constructor; [reflexivity|].
  apply Forall_app. split; [|repeat constructor].
  apply Forall_flat_map. apply Forall_forall. intros c _.
  apply escape_char_ascii.
Qed.

Lemma dumps_ascii d : ascii_only (dumps d).
Proof.
  unfold dumps. constructor; [reflexivity|].
  apply Forall_app. split; [|repeat constructor].
  induction d as [|kv d IH]; [constructor|].
  assert (Hitem : ascii_only (dumps_item kv)).
  { unfold dumps_item. repeat (apply Forall_app; split);
      try apply encode_basestring_ascii_ascii; repeat constructor. }
  destruct d as [|kv' d]; [exact Hitem|].
  change (join_items (List.map dumps_item (kv :: kv' :: d)))
    with (dumps_item kv ++ [44; 32]
          ++ join_items (List.map dumps_item (kv' :: d))).
  apply Forall_app. split; [exact Hitem|].
  apply Forall_app. split; [repeat constructor | exact IH].
Qed.

Lemma encode_list_ascii t : ascii_only t -> Utf8.encode_list t = Some t.
Proof.
  induction 1 as [|c t Hc _ IH]; [reflexivity|].
  simpl. unfold Utf8.encode_char.
  apply N.ltb_lt in Hc. rewrite Hc, IH. reflexivity.
Qed.

Lemma decode_list_ascii t : ascii_only t -> Utf8.decode_list t = Some t.
Proof.
  induction 1 as [|c t Hc _ IH]; [reflexivity|].
  simpl. apply N.ltb_lt in Hc. rewrite Hc, IH. reflexivity.
Qed.

Lemma bytes_to_of_list t : ascii_only t -> bytes_to_list (bytes_of_list t) = t.
Proof.
  intros H. unfold bytes_to_list, bytes_of_list.
  rewrite list_ascii_of_string_of_list_ascii.
  induction H as [|c t Hc _ IH]; [reflexivity|].
  simpl. rewrite IH, N_ascii_embedding by lia. reflexivity.
Qed.

(** Text that is ASCII goes through [encode] and [decode] unchanged. *)
Lemma utf8_ascii_roundtrip t :
  ascii_only t ->
  exists wire, Utf8.encode t = Some wire /\ Utf8.decode wire = Some t.
Proof.
  intros H. exists (bytes_of_list t). split.
  - unfold Utf8.encode. rewrite (encode_list_ascii t H). reflexivity.
  - unfold Utf8.decode. rewrite (bytes_to_of_list t H).
    apply decode_list_ascii. exact H.
Qed.

(** *** The scanner consumes text, and its fuel is enough *)

Lemma skip_ws_length s : (List.length (skip_ws s) <= List.length s)%nat.
Proof.
  induction s as [|c s IH]; simpl; [lia|].
  destruct (is_ws c); simpl; lia.
Qed.

Lemma push_some c x content r :
  push c x = Some (content, r) -> exists content', x = Some (content', r).
Proof.
  destruct x as [[content' r']|]; simpl; [|discriminate].
  intros H. injection H as _ <-. eauto.
Qed.

Lemma scanstring_shorter :
  forall n s content r,
    (List.length s <= n)%nat ->
    scanstring s = Some (content, r) ->
    (List.length r < List.length s)%nat.
Proof.
  induction n as [|n IH]; intros s content r Hn H.
  - destruct s; [discriminate | simpl in Hn; lia].
  - destruct s as [|c s]; [discriminate|].
    cbn [scanstring] in H.
    repeat match type of H with
           | (if ?b then _ else _) = _ => destruct b
           | match ?x with _ => _ end = _ => destruct x
           end;
      try discriminate;
      try (injection H as _ <-; simpl; lia);
      apply push_some in H; destruct H as [content' H];
      apply IH in H; simpl in *; lia.
Qed.

Lemma span_digits_length s ds r :
  span_digits s = (ds, r) -> (List.length r <= List.length s)%nat.
Proof.
  revert ds r; induction s as [|c s IH]; intros ds r H; simpl in H.
  - injection H as _ <-. simpl; lia.
  - destruct (is_digit c).
    + destruct (span_digits s) as [ds' r'] eqn:E.
      injection H as _ <-. specialize (IH _ _ eq_refl). simpl; lia.
    + injection H as _ <-. lia.
Qed.

Lemma strip_prefix_length p s r :
  strip_prefix p s = Some r ->
  (List.length r + List.length p = List.length s)%nat.
Proof.
  revert s; induction p as [|a p IH]; intros s H; simpl in H.
  - injection H as <-. simpl; lia.
  - destruct s as [|b s]; [discriminate|].
    destruct (a =? b); [|discriminate].
    apply IH in H. simpl; lia.
Qed.

Lemma match_integer_shorter s neg m r :
  match_integer s = Some (neg, m, r) ->
  (List.length r < List.length s)%nat.
Proof.
  unfold match_integer. intros H.
  destruct s as [|c s]; [discriminate|].
  destruct (c =? 45).
  - destruct s as [|c' s]; [discriminate|].
    destruct (c' =? 48); [injection H as _ _ <-; simpl; lia|].
    destruct (is_digit c'); [|discriminate].
    destruct (span_digits (c' :: s)) as [ds rest] eqn:E.
    injection H as _ _ <-. simpl in E. destruct (is_digit c').
    + destruct (span_digits s) as [ds' r'] eqn:E'.
      injection E as _ <-. apply span_digits_length in E'. simpl; lia.
    + injection E as _ <-. simpl. lia.
  - destruct (c =? 48); [injection H as _ _ <-; simpl; lia|].
    destruct (is_digit c) eqn:Ed; [|discriminate].
    destruct (span_digits (c :: s)) as [ds rest] eqn:E.
    injection H as _ _ <-. simpl in E. rewrite Ed in E.
    destruct (span_digits s) as [ds' r'] eqn:E'.
    injection E as _ <-. apply span_digits_length in E'. simpl; lia.
Qed.

Lemma match_frac_length s ds r :
  match_frac s = Some (ds, r) -> (List.length r <= List.length s)%nat.
Proof.
  unfold match_frac. destruct s as [|c s]; [discriminate|].
  destruct (c =? 46); [|discriminate].
  destruct (span_digits s) as [[|d ds'] rest] eqn:E; [discriminate|].
  intros H. injection H as _ <-. apply span_digits_length in E. simpl; lia.
Qed.

Lemma match_exp_length s e r :
  match_exp s = Some (e, r) -> (List.length r <= List.length s)%nat.
Proof.
  unfold match_exp. destruct s as [|c s]; [discriminate|].
  destruct ((c =? 101) || (c =? 69)); [|discriminate].
  destruct s as [|c' s'].
  - simpl. discriminate.
  - destruct (c' =? 45); [|destruct (c' =? 43)];
      match goal with
      | |- match span_digits ?x with _ => _ end = _ -> _ =>
        destruct (span_digits x) as [[|d ds'] rest] eqn:E
      end; try discriminate;
      intros H; injection H as _ <-; apply span_digits_length in E;
      simpl in *; lia.
Qed.

Lemma match_number_shorter lim s v r :
  match_number lim s = Number v r -> (List.length r < List.length s)%nat.
Proof.
  unfold match_number.
  destruct (match_integer s) as [[[neg m] r0]|] eqn:Ei; [|discriminate].
  apply match_integer_shorter in Ei.
  destruct (match_frac r0) as [[ds r1]|] eqn:Ef.
  - apply match_frac_length in Ef.
    destruct (match_exp r1) as [[e r2]|] eqn:Ee.
    + apply match_exp_length in Ee. intros H. injection H as _ <-. lia.
    + intros H. injection H as _ <-. lia.
  - destruct (match_exp r0) as [[e r2]|] eqn:Ee.
    + apply match_exp_length in Ee. intros H. injection H as _ <-. lia.
    + destruct (too_many_digits lim (List.length m)); [discriminate|].
      intros H. injection H as _ <-. lia.
Qed.

Lemma scan_literals_shorter lim s :
  shorter
    match strip_prefix (txt "null") s with
    | Some rest => Some (VNone, rest)
    | None =>
    match strip_prefix (txt "true") s with
    | Some rest => Some (VBool true, rest)
    | None =>
    match strip_prefix (txt "false") s with
    | Some rest => Some (VBool false, rest)
    | None =>
    match match_number lim s with
    | Number v rest => Some (v, rest)
    | NumberRaises => None
    | NoNumber =>
    match strip_prefix (txt "NaN") s with
    | Some rest => Some (VFloat FNaN, rest)
    | None =>
    match strip_prefix (txt "Infinity") s with
    | Some rest => Some (VFloat FInfinity, rest)
    | None =>
    match strip_prefix (txt "-Infinity") s with
    | Some rest => Some (VFloat FNegInfinity, rest)
    | None => None
    end end end end end end end
    s.
Proof.
  intros v r H.
  repeat match type of H with
         | match strip_prefix ?p s with _ => _ end = _ =>
           let E := fresh "E" in
           destruct (strip_prefix p s) eqn:E;
           [apply strip_prefix_length in E; simpl in E;
            injection H as _ <-; lia|]
         | match match_number lim s with _ => _ end = _ =>
           let E := fresh "E" in
           destruct (match_number lim s) as [| |v' r'] eqn:E;
           [|discriminate
            |apply match_number_shorter in E; injection H as _ <-; exact E]
         end.
  discriminate.
Qed.

Lemma scan_progress (lim : limits) (fuel : nat) :
  (forall depth s, shorter (scan_once fuel lim depth s) s)
  /\ (forall depth s values,
         shorter (array_loop fuel lim depth s values) s)
  /\ (forall depth s pairs,
         shorter (object_loop fuel lim depth s pairs) s).
Proof.
  induction fuel as [|fuel (IHs & IHa & IHo)].
  - repeat split; intros; intros v r H; discriminate.
  - split; [|split].
    + intros depth s v r H. destruct s as [|c s]; [discriminate|].
      cbn [scan_once] in H.
      destruct (c =? 34).
      { destruct (scanstring s) as [[content rest]|] eqn:E; [|discriminate].
        injection H as _ <-.
        apply (scanstring_shorter (List.length s)) in E; simpl; lia. }
      destruct (c =? 123).
      { destruct depth as [|depth]; [discriminate|].
        pose proof (skip_ws_length s) as Hw.
        destruct (skip_ws s) as [|c1 r1]; [discriminate|].
        destruct (c1 =? 125); [injection H as _ <-; simpl in *; lia|].
        destruct (c1 =? 34); [|discriminate].
        apply IHo in H. simpl in *; lia. }
      destruct (c =? 91).
      { destruct depth as [|depth]; [discriminate|].
        pose proof (skip_ws_length s) as Hw.
        destruct (skip_ws s) as [|c1 r1]; [discriminate|].
        destruct (c1 =? 93); [injection H as _ <-; simpl in *; lia|].
        apply IHa in H. simpl in *; lia. }
      exact (scan_literals_shorter lim (c :: s) v r H).
    + intros depth s values v r H. cbn [array_loop] in H.
      destruct (scan_once fuel lim depth s) as [[v1 r1]|] eqn:E;
        [|discriminate].
      apply IHs in E.
      pose proof (skip_ws_length r1) as Hw.
      destruct (skip_ws r1) as [|c r2]; [discriminate|].
      destruct (c =? 93); [injection H as _ <-; simpl in *; lia|].
      destruct (c =? 44); [|discriminate].
      apply IHa in H. pose proof (skip_ws_length r2). simpl in *; lia.
    + intros depth s pairs v r H. cbn [object_loop] in H.
      destruct (scanstring s) as [[key r1]|] eqn:Ek; [|discriminate].
      apply (scanstring_shorter (List.length s)) in Ek; [|lia].
      pose proof (skip_ws_length r1) as Hw1.
      destruct (skip_ws r1) as [|c r2]; [discriminate|].
      destruct (c =? 58); [|discriminate].
      destruct (scan_once fuel lim depth (skip_ws r2)) as [[v1 r3]|] eqn:Ev;
        [|discriminate].
      apply IHs in Ev. pose proof (skip_ws_length r2) as Hw2.
      pose proof (skip_ws_length r3) as Hw3.
      destruct (skip_ws r3) as [|c2 r4]; [discriminate|].
      destruct (c2 =? 125); [injection H as _ <-; simpl in *; lia|].
      destruct (c2 =? 44); [|discriminate].
      pose proof (skip_ws_length r4) as Hw4.
      destruct (skip_ws r4) as [|c3 r5]; [discriminate|].
      destruct (c3 =? 34); [|discriminate].
      apply IHo in H. simpl in *; lia.
Qed.

(** Above twice the length of the text, the fuel does not matter. *)
Lemma scan_fuel (lim : limits) (f1 : nat) :
  forall f2,
    (forall depth s,
        (2 * List.length s < f1)%nat -> (2 * List.length s < f2)%nat ->
        scan_once f1 lim depth s = scan_once f2 lim depth s)
    /\ (forall depth s values,
           (2 * List.length s + 1 < f1)%nat ->
           (2 * List.length s + 1 < f2)%nat ->
           array_loop f1 lim depth s values
           = array_loop f2 lim depth s values)
    /\ (forall depth s pairs,
           (2 * List.length s + 1 < f1)%nat ->
           (2 * List.length s + 1 < f2)%nat ->
           object_loop f1 lim depth s pairs
           = object_loop f2 lim depth s pairs).
Proof.
  induction f1 as [|f1 IH]; intros f2.
  - repeat split; intros; lia.
  - destruct f2 as [|f2]; [repeat split; intros; lia|].
    destruct (IH f2) as (IHs & IHa & IHo).
    destruct (scan_progress lim f1) as (Ps & _ & _).
    split; [|split].
    + intros depth s H1 H2. destruct s as [|c s]; [reflexivity|].
      cbn [scan_once].
      destruct (c =? 34); [reflexivity|].
      destruct (c =? 123).
      { destruct depth as [|depth]; [reflexivity|].
        pose proof (skip_ws_length s) as Hw.
        destruct (skip_ws s) as [|c1 r1]; [reflexivity|].
        destruct (c1 =? 125); [reflexivity|].
        destruct (c1 =? 34); [|reflexivity].
        apply IHo; simpl in *; lia. }
      destruct (c =? 91).
      { destruct depth as [|depth]; [reflexivity|].
        pose proof (skip_ws_length s) as Hw.
        destruct (skip_ws s) as [|c1 r1]; [reflexivity|].
        destruct (c1 =? 93); [reflexivity|].
        apply IHa; simpl in *; lia. }
      reflexivity.
    + intros depth s values H1 H2. cbn [array_loop].
      rewrite <- (IHs depth s) by lia.
      destruct (scan_once f1 lim depth s) as [[v1 r1]|] eqn:E;
        [|reflexivity].
      apply Ps in E. pose proof (skip_ws_length r1) as Hw.
      destruct (skip_ws r1) as [|c r2]; [reflexivity|].
      destruct (c =? 93); [reflexivity|].
      destruct (c =? 44); [|reflexivity].
      pose proof (skip_ws_length r2).
      apply IHa; simpl in *; lia.
    + intros depth s pairs H1 H2. cbn [object_loop].
      destruct (scanstring s) as [[key r1]|] eqn:Ek; [|reflexivity].
      apply (scanstring_shorter (List.length s)) in Ek; [|lia].
      pose proof (skip_ws_length r1) as Hw1.
      destruct (skip_ws r1) as [|c r2]; [reflexivity|].
      destruct (c =? 58); [|reflexivity].
      pose proof (skip_ws_length r2) as Hw2.
      rewrite <- (IHs depth (skip_ws r2)) by (simpl in *; lia).
      destruct (scan_once f1 lim depth (skip_ws r2)) as [[v1 r3]|] eqn:Ev;
        [|reflexivity].
      apply Ps in Ev. pose proof (skip_ws_length r3) as Hw3.
      destruct (skip_ws r3) as [|c2 r4]; [reflexivity|].
      destruct (c2 =? 125); [reflexivity|].
      destruct (c2 =? 44); [|reflexivity].
      pose proof (skip_ws_length r4) as Hw4.
      destruct (skip_ws r4) as [|c3 r5]; [reflexivity|].
      destruct (c3 =? 34); [|reflexivity].
      apply IHo; simpl in *; lia.
Qed.

(** [loads] gives the scanner more fuel than it can use: with any larger
    amount the result is the same, so [None] is a raised exception and
    never a lack of fuel. *)
Lemma loads_fuel_enough (lim : limits) (depth : nat) (s : str)
  (fuel : nat) :
  (2 * List.length s + 2 <= fuel)%nat ->
  scan_once fuel lim depth (skip_ws s)
  = scan_once (2 * List.length s + 2) lim depth (skip_ws s).
Proof.
  intros H. pose proof (skip_ws_length s).
  destruct (scan_fuel lim fuel (2 * List.length s + 2)) as (Hs & _).
  apply Hs; lia.
Qed.

End JsonFacts.

(** ** The message handler *)

Module ListenerFacts.

Import Json Subscriber Spec Samples.
Open Scope N_scope.

Lemma decode_parse lim payload :
  decode lim payload
  = match parse lim payload with
    | None => ParseFailed
    | Some (VDict d) =>
      Fields (VDict d)
             (dict_get d (txt "status") (VStr []))
             (dict_get d (txt "timestamp") (VStr UNKNOWN_TIME))
             (dict_get d (txt "location") (VStr UNKNOWN_LOCATION))
    | Some _ => NoGetAttribute
    end.
Proof.
  unfold decode, parse.
  destruct (Utf8.decode payload) as [text|]; [|reflexivity].
  destruct (loads lim text) as [[| | | | | |]|]; reflexivity.
Qed.





(** C5, at the failing input. The payload
    [{"status":"INTRUSION","location":"\ud800"}] is ASCII, valid UTF-8
    and valid JSON: it decodes to an object whose status equals
    "INTRUSION" and whose location is the one-character text U+D800.  The
    [print] of line 82, outside every [try], raises UnicodeEncodeError:
    the handler prints no message and does not beep, [loop_forever] lets
    the exception through, the next alert is never handled and the process
    ends with status 1. *)
Theorem on_message_raises_on_unprintable_alert (lim : limits)
  (winsound_ok : bool) :
  parse lim payload_surrogate
  = Some (VDict [(txt "status", VStr (txt "INTRUSION"));
                 (txt "location", VStr [55296])])
  /\ on_message lim winsound_ok payload_surrogate
     = ([], RaisedUnicodeEncodeError)
  /\ main lim false winsound_ok
          [Message payload_surrogate; Message payload_intrusion]
     = ([Print_listening; Disconnect; Print_closed],
        Some Process.Uncaught)
  /\ Process.exit_status Process.Uncaught = 1%Z.
Proof. repeat split. Qed.


(** C6, at the failing inputs. The payloads [[]], [5], [null] and a quoted
    string are JSON texts that are not objects: the handler raises
    AttributeError at line 76, [loop_forever] lets it through and the
    process ends with status 1. *)
Theorem on_message_raises_on_non_object (lim : limits)
  (winsound_ok : bool) :
  on_message lim winsound_ok "[]" = ([], RaisedAttributeError)
  /\ on_message lim winsound_ok "5" = ([], RaisedAttributeError)
  /\ on_message lim winsound_ok "null" = ([], RaisedAttributeError)
  /\ on_message lim winsound_ok (qs "INTRUSION")
     = ([], RaisedAttributeError)
  /\ snd (main lim false winsound_ok
               [Message "[]"; Message payload_intrusion])
     = Some Process.Uncaught
  /\ Process.exit_status Process.Uncaught = 1%Z.
Proof. repeat split. Qed.

Lemma dict_get_missing d k default :
  missing k d -> dict_get d k default = default.
Proof.
  unfold missing. induction d as [|[k' v] d IH]; intros H; simpl; auto.
  destruct (str_eqb k k') eqn:E.
  - apply TextFacts.str_eqb_eq in E. subst. exfalso.
    apply (H v). left. reflexivity.
  - apply IH. intros v' Hin. apply (H v'). right. exact Hin.
Qed.

(** C7 (as the code has it). When the text is not valid UTF-8 or not valid
    JSON, decoding fails and the handler prints the failure and returns.
    When the text is a JSON object, decoding succeeds whatever keys it
    has: a missing status is the empty text (the message is then printed
    as a non-alert one), a missing timestamp is [UNKNOWN_TIME] and a
    missing location is [UNKNOWN_LOCATION]. *)
Theorem decode_failure_and_defaults (lim : limits) (payload : string) :
  (parse lim payload = None ->
   decode lim payload = ParseFailed
   /\ forall w, on_message lim w payload = ([Print_parse_failed], Returned))
  /\ (forall d, parse lim payload = Some (VDict d) ->
      exists status ts location,
        decode lim payload = Fields (VDict d) status ts location
        /\ (missing (txt "status") d ->
            status = VStr []
            /\ forall w, on_message lim w payload
                         = ([Print_info (VDict d)], Returned))
        /\ (missing (txt "timestamp") d -> ts = VStr UNKNOWN_TIME)
        /\ (missing (txt "location") d -> location = VStr UNKNOWN_LOCATION)).
Proof.
  split.
  - intros Hp. split.
    + rewrite decode_parse, Hp. reflexivity.
    + intros w. unfold on_message. rewrite decode_parse, Hp. reflexivity.
  - intros d Hp. rewrite decode_parse, Hp.
    do 3 eexists. split; [reflexivity|]. split; [|split].
    + intros Hm. rewrite (dict_get_missing d _ _ Hm). split; [reflexivity|].
      intros w. unfold on_message. rewrite decode_parse, Hp.
      rewrite (dict_get_missing d _ _ Hm). reflexivity.
    + intros Hm. apply dict_get_missing. exact Hm.
    + intros Hm. apply dict_get_missing. exact Hm.
Qed.

Lemma decode_failure_and_defaults_witness :
  decode default_limits "{oops" = ParseFailed
  /\ decode default_limits payload_ok
     = Fields (VDict [(txt "status", VStr (txt "OK"))])
              (VStr (txt "OK")) (VStr UNKNOWN_TIME) (VStr UNKNOWN_LOCATION).
Proof.
  split.
  - destruct (decode_failure_and_defaults default_limits "{oops")
      as [Hfail _].
    destruct (Hfail eq_refl) as [H _]. exact H.
  - destruct (decode_failure_and_defaults default_limits payload_ok)
      as [_ Hobj].
    destruct (Hobj [(txt "status", VStr (txt "OK"))] eq_refl)
      as (status & ts & location & Hdec & _ & Hts & Hloc).
    rewrite Hdec. f_equal.
    + injection Hdec as <- _ _. reflexivity.
    + apply Hts. intros v [H|[]]. discriminate.
    + apply Hloc. intros v [H|[]]. discriminate.
Defined.

(** C7, counterexample. The payload [{}] and a payload with a timestamp
    only are valid JSON without a status field: decoding does not fail,
    the status is the empty text and the handler prints them as non-alert
    messages. *)
Lemma missing_status_is_not_a_failure :
  decode default_limits "{}"
  = Fields (VDict []) (VStr []) (VStr UNKNOWN_TIME) (VStr UNKNOWN_LOCATION)
  /\ decode default_limits "{}" <> ParseFailed
  /\ on_message default_limits false "{}"
     = ([Print_info (VDict [])], Returned)
  /\ decode default_limits payload_no_status <> ParseFailed
  /\ on_message default_limits false payload_no_status
     = ([Print_info
           (VDict [(txt "timestamp", VStr (txt "2024-01-01 00:00:00"))])],
        Returned).
Proof. repeat split; discriminate. Qed.

End ListenerFacts.

(** ** The codec round trip *)

Module CodecFacts.

Import Json Codec Spec JsonFacts.
Open Scope N_scope.

Lemma publisher_payload stamp :
  Publisher.alert_payload stamp
  = payload_of {| status := txt "INTRUSION"; timestamp := stamp;
                  location := Publisher.LOCATION_LABEL |}.
Proof. reflexivity. Qed.

Lemma valid_event_pairs e :
  valid_event e = true -> forallb valid_pair (payload_of e) = true.
Proof.
  unfold valid_event. rewrite !andb_true_iff. intros [[Hs Ht] Hl].
  unfold payload_of, valid_pair. cbn [forallb fst snd].
  rewrite Hs, Ht, Hl. reflexivity.
Qed.

(** C8. For every alert event whose three texts hold Unicode scalar
    values, the bytes produced by the publisher's encoding exist and the
    subscriber's decoding of them gives the event back. *)
Theorem alert_roundtrip (e : AlertEvent) :
  valid_event e = true ->
  exists wire,
    encode e = Some wire /\ forall lim, decode lim wire = Some e.
Proof.
  intros Hv.
  destruct (utf8_ascii_roundtrip (dumps (payload_of e)) (dumps_ascii _))
    as (wire & Henc & Hdec).
  exists wire. split; [exact Henc|]. intros lim.
  unfold decode, Subscriber.decode. rewrite Hdec.
  rewrite (loads_dumps lim (payload_of e) (valid_event_pairs e Hv)).
  destruct e as [s t l]. reflexivity.
Qed.

Lemma alert_roundtrip_witness :
  exists wire,
    encode {| status := txt "INTRUSION";
              timestamp := txt "2024-01-01 00:00:00";
              location := [23458; 24307; 128680; 34; 92; 10] |} = Some wire
    /\ forall lim,
        decode lim wire
        = Some {| status := txt "INTRUSION";
                  timestamp := txt "2024-01-01 00:00:00";
                  location := [23458; 24307; 128680; 34; 92; 10] |}.
Proof. apply alert_roundtrip. reflexivity. Defined.

End CodecFacts.

(** ** Process exit *)

Module ExitFacts.

(** C9, at the failing inputs. When the initial connect raises, or when
    the camera cannot be opened, the publisher prints a message and
    returns from [main], so the process ends with status 0; the
    subscriber, on the same connect failure, calls [sys.exit(1)]. *)
Theorem publisher_startup_failure_exits_zero (names : list (Z * str))
  (inputs : list Publisher.loop_input) (camera : bool)
  (lim : Json.limits) (winsound_ok : bool)
  (messages : list Subscriber.loop_input) :
  option_map Process.exit_status
    (snd (Publisher.main
            {| Publisher.mkdir_raises := false;
               Publisher.model_load_raises := false;
               Publisher.connect_raises := true;
               Publisher.camera_opened := camera |} names inputs))
  = Some 0%Z
  /\ option_map Process.exit_status
       (snd (Publisher.main
               {| Publisher.mkdir_raises := false;
                  Publisher.model_load_raises := false;
                  Publisher.connect_raises := false;
                  Publisher.camera_opened := false |} names inputs))
     = Some 0%Z
  /\ option_map Process.exit_status
       (snd (Subscriber.main lim true winsound_ok messages))
     = Some 1%Z.
Proof. repeat split. Qed.



(** The subscriber ends with status 0 when Ctrl+C arrives while it
    listens. *)
Lemma subscriber_interrupt_exits_zero lim winsound_ok inputs evs :
  Subscriber.loop_forever lim winsound_ok inputs
  = (evs, Subscriber.Interrupted) ->
  option_map Process.exit_status
    (snd (Subscriber.main lim false winsound_ok inputs)) = Some 0%Z.
Proof. intros H. unfold Subscriber.main. rewrite H. reflexivity. Qed.

End ExitFacts.

(** ** The detection scan, further *)

Module DetectionFacts.

Import Publisher Spec Samples Observe.
Open Scope Q_scope.

Lemma box_step_color names st b :
  roi_color st = (if intrusion st then red else green) ->
  roi_color (box_step names st b)
  = (if intrusion (box_step names st b) then red else green).
Proof.
  intros H. unfold box_step.
  destruct (negb _ || _); [exact H|].
  destruct (box_center b) as [cx cy].
  destruct (point_in_rect _ _ _ _ _ _); [reflexivity | exact H].
Qed.

Lemma scan_boxes_color names boxes st :
  roi_color st = (if intrusion st then red else green) ->
  roi_color (fold_left (box_step names) boxes st)
  = (if intrusion (fold_left (box_step names) boxes st) then red else green).
Proof.
  revert st; induction boxes as [|b boxes IH]; intros st H; simpl; auto.
  apply IH. apply box_step_color. exact H.
Qed.

Lemma scan_results_color names results :
  roi_color (scan_results names results)
  = (if intrusion (scan_results names results) then red else green).
Proof.
  unfold scan_results.
  assert (H : roi_color scan_init
              = (if intrusion scan_init then red else green)) by reflexivity.
  revert H. generalize scan_init.
  induction results as [|r results IH]; intros st H; simpl; auto.
  apply IH. apply scan_boxes_color. exact H.
Qed.

(** X1. After the scan of any frame, the zone colour is red exactly when
    the frame is flagged, and green otherwise. *)
Theorem scan_color_follows_flag (names : list (Z * str))
  (results : list (list Box)) :
  roi_color (scan_results names results)
  = if intrusion (scan_results names results) then (0, 0, 255)%Z
    else (0, 255, 0)%Z.
Proof. apply scan_results_color. Qed.

Lemma scan_state_eq (a b : scan_state) :
  intrusion a = intrusion b -> roi_color a = roi_color b -> a = b.
Proof. destruct a, b; simpl; intros -> ->; reflexivity. Qed.

(** X2. The outcome of the scan depends only on which detections the
    frame holds: two detector outputs with the same detections, grouped
    and ordered in any way, give the same flag and the same colour. *)
Theorem scan_ignores_order (names : list (Z * str))
  (results1 results2 : list (list Box)) :
  Permutation (List.concat results1) (List.concat results2) ->
  scan_results names results1 = scan_results names results2.
Proof.
  intros Hp.
  assert (Hflag : forall rs1 rs2,
             Permutation (List.concat rs1) (List.concat rs2) ->
             intrusion (scan_results names rs1) = true ->
             intrusion (scan_results names rs2) = true).
  { intros rs1 rs2 P H. unfold scan_results in *.
    apply ZoneFacts.scan_results_from in H. apply ZoneFacts.scan_results_from.
    destruct H as [H|(r & b & Hr & Hb & Hq)]; [discriminate|].
    right.
    assert (Hin : In b (List.concat rs2)).
    { eapply Permutation_in; [exact P|]. apply in_concat. eauto. }
    apply in_concat in Hin. destruct Hin as (r' & Hr' & Hb'). eauto. }
  assert (E : intrusion (scan_results names results1)
              = intrusion (scan_results names results2)).
  { destruct (intrusion (scan_results names results1)) eqn:E1.
    - symmetry. apply (Hflag results1 results2); auto.
    - destruct (intrusion (scan_results names results2)) eqn:E2; auto.
      apply (Hflag results2 results1) in E2;
        [congruence | apply Permutation_sym; exact Hp]. }
  apply scan_state_eq; [exact E|].
  rewrite !scan_results_color, E. reflexivity.
Qed.

Lemma scan_ignores_order_witness :
  scan_results coco_names [[edge_box; person_box]; []]
  = scan_results coco_names [[person_box]; [edge_box]].
Proof.
  apply scan_ignores_order. simpl. apply perm_swap.
Defined.

(** [int] moves a float by less than one, towards zero. *)
Lemma py_int_near (x : Q) :
  -1 < x - inject_Z (py_int x) /\ x - inject_Z (py_int x) < 1.
Proof.
  destruct x as [n d]. unfold py_int. simpl Qnum. simpl Qden.
  pose proof (Z.quot_rem' n (Z.pos d)) as Hqr.
  pose proof (Z.rem_bound_abs n (Z.pos d) ltac:(discriminate)) as Hb.
  unfold Qlt, Qminus, Qplus, Qopp, inject_Z. simpl.
  revert Hqr Hb. generalize (Z.quot n (Z.pos d)) (Z.rem n (Z.pos d)).
  intros q r Hqr Hb. rewrite Z.abs_lt in Hb.
  change (Z.abs (Z.pos d)) with (Z.pos d) in Hb.
  split; nia.
Qed.

Lemma py_int_integer (z : Z) : py_int (inject_Z z) = z.
Proof. unfold py_int. simpl. apply Z.quot_1_r. Qed.

Lemma midpoint_near (a b ta tb : Q) :
  -1 < a - ta /\ a - ta < 1 ->
  -1 < b - tb /\ b - tb < 1 ->
  -1 < (ta + tb) / 2 - (a + b) / 2 /\ (ta + tb) / 2 - (a + b) / 2 < 1.
Proof.
  intros [? ?] [? ?]. unfold Qdiv. change (/ 2) with (1 # 2). split; lra.
Qed.

(** X3. The centre the scan computes lies less than one pixel, on each
    axis, from the midpoint of the box the detector reports; when the four
    reported coordinates are whole numbers the two coincide. *)
Theorem box_center_near_midpoint (b : Box) :
  (-1 < fst (box_center b) - fst (spec_midpoint b)
   /\ fst (box_center b) - fst (spec_midpoint b) < 1)
  /\ (-1 < snd (box_center b) - snd (spec_midpoint b)
      /\ snd (box_center b) - snd (spec_midpoint b) < 1)
  /\ (forall x1 y1 x2 y2 : Z,
         xyxy b = (inject_Z x1, inject_Z y1, inject_Z x2, inject_Z y2) ->
         fst (box_center b) == fst (spec_midpoint b)
         /\ snd (box_center b) == snd (spec_midpoint b)).
Proof.
  unfold box_center, spec_midpoint.
  destruct (xyxy b) as [[[bx1 by1] bx2] by2] eqn:E. simpl fst. simpl snd.
  rewrite !inject_Z_plus.
  split; [|split].
  - apply midpoint_near; apply py_int_near.
  - apply midpoint_near; apply py_int_near.
  - intros x1 y1 x2 y2 H. injection H as -> -> -> ->.
    rewrite !py_int_integer. split; reflexivity.
Qed.

Lemma box_center_near_midpoint_witness :
  fst (box_center person_box) == fst (spec_midpoint person_box)
  /\ snd (box_center person_box) == snd (spec_midpoint person_box).
Proof.
  destruct (box_center_near_midpoint person_box) as (_ & _ & H).
  apply (H 200 150 400 350)%Z. reflexivity.
Defined.

(** X4. A rectangle whose corners are given the wrong way round on either
    axis contains no point at all. *)
Theorem point_in_rect_inverted_is_empty (cx cy : Q) (x1 y1 x2 y2 : Z) :
  (x2 < x1)%Z \/ (y2 < y1)%Z ->
  point_in_rect cx cy x1 y1 x2 y2 = false.
Proof.
  intros H. destruct (point_in_rect cx cy x1 y1 x2 y2) eqn:E; auto.
  apply ZoneFacts.point_in_rect_iff in E.
  destruct E as [[Hx1 Hx2] [Hy1 Hy2]].
  destruct H as [H|H]; rewrite Zlt_Qlt in H; lra.
Qed.

Lemma point_in_rect_inverted_is_empty_witness :
  point_in_rect 300 250 500 100 100 400 = false.
Proof.
  apply point_in_rect_inverted_is_empty. left. lia.
Defined.

End DetectionFacts.

(** ** The frame loop, further *)

Module FrameFacts.

Import Publisher Spec Samples Observe CooldownFacts.
Open Scope Q_scope.

Lemma frame_step_unread names last f :
  ret f = false ->
  frame_step names last f
  = {| events := read_failure_events; last_sent_after := last;
       dispatched := false; ctl := Continue |}.
Proof. intros H. unfold frame_step. rewrite H. reflexivity. Qed.

(** X5. While [cap.read()] keeps failing the loop only prints and sleeps:
    it dispatches nothing, leaves [last_sent] alone and does not end,
    whatever key is pressed (the key is not even read). *)
Theorem unread_frames_spin (names : list (Z * str)) (last : option Q)
  (frames : list frame_env) :
  Forall (fun f => ret f = false) frames ->
  frame_loop names last (List.map Frame frames)
  = (List.concat (List.map (fun _ => read_failure_events) frames),
     Running last).
Proof.
  induction 1 as [|f frames Hf _ IH]; [reflexivity|].
  cbn [List.map frame_loop].
  rewrite (frame_step_unread names last f Hf). cbn [ctl events last_sent_after].
  rewrite IH. reflexivity.
Qed.

Lemma unread_frames_spin_witness :
  frame_loop coco_names (Some 7)
    (List.map Frame
       [{| ret := false; results := [[person_box]]; now := 100;
           evidence_stamp := []; imwrite_raises := false;
           pub := {| payload_stamp := []; publish_raises := false;
                     sent_clock := 100 |};
           key := 113 |}])
  = ([Print_frame_read_failed; Sleep_half_second], Running (Some 7)).
Proof.
  apply (unread_frames_spin coco_names (Some 7)). repeat constructor.
Defined.

Lemma occurrences_app {A : Type} (p : A -> bool) (l1 l2 : list A) :
  occurrences p (l1 ++ l2) = (occurrences p l1 + occurrences p l2)%nat.
Proof. unfold occurrences. rewrite filter_app, length_app. reflexivity. Qed.




(** X7. Evidence files are named after the time stamp alone: two
    dispatches write to the same file exactly when their stamps are the
    same text. *)
Theorem evidence_filename_injective (s1 s2 : str) :
  evidence_filename s1 = evidence_filename s2 <-> s1 = s2.
Proof.
  split; [|intros ->; reflexivity].
  unfold evidence_filename. intros H.
  apply app_inv_head in H. apply app_inv_tail in H. exact H.
Qed.

(** X8. After a frame that was read, the loop breaks exactly when the low
    byte of the key code is that of the letter q (113); higher bits of the
    code are ignored. *)
Theorem quit_iff_low_byte_q (names : list (Z * str)) (last : option Q)
  (f : frame_env) :
  ret f = true ->
  (ctl (frame_step names last f) = Break <-> ((key f) mod 256 = 113)%Z).
Proof.
  intros Hr. rewrite (ctl_by_key names last f Hr).
  change 255%Z with (Z.ones 8). rewrite Z.land_ones by lia.
  change (2 ^ 8)%Z with 256%Z.
  destruct (Z.eqb_spec ((key f) mod 256) 113) as [E|E];
    split; intros H; try reflexivity; try discriminate; tauto.
Qed.

Lemma quit_iff_low_byte_q_witness :
  ctl (frame_step coco_names None
         {| ret := true; results := []; now := 0;
            evidence_stamp := []; imwrite_raises := false;
            pub := {| payload_stamp := []; publish_raises := false;
                      sent_clock := 0 |};
            key := 1048689 |}) = Break.
Proof.
  apply quit_iff_low_byte_q; reflexivity.
Defined.

End FrameFacts.

(** ** Runs of the frame loop *)

Module RunFacts.

Import Publisher Spec Samples Observe CooldownFacts.
Open Scope Q_scope.

Lemma step_keeps_or_raises names t f :
  clock_ok f ->
  exists t', last_sent_after (frame_step names (Some t) f) = Some t'
             /\ t <= t'.
Proof.
  intros Hclk.
  destruct (dispatched (frame_step names (Some t) f)) eqn:Ed.
  - rewrite (dispatched_sets _ _ _ Ed).
    apply dispatched_iff in Ed. destruct Ed as [_ Hc].
    apply cooldown_over_iff in Hc.
    destruct Hc as [Hc|(t0 & E & Hc)]; [discriminate|]. injection E as <-.
    change (inject_Z COOLDOWN_SECONDS) with 5 in Hc. unfold clock_ok in Hclk.
    eexists. split; [reflexivity|].
    unfold publish_alert. destruct (publish_raises (pub f)); simpl; lra.
  - rewrite (not_dispatched_keeps _ _ _ Ed). exists t. split; [reflexivity|].
    apply Qle_refl.
Qed.

(** X9. Once [last_sent] holds a time stamp it is never unset again and,
    as long as the clock does not run backwards between the gate and the
    return of the publish call, it never decreases. *)
Theorem last_sent_never_decreases (names : list (Z * str))
  (frames : list frame_env) :
  forall t,
    Forall clock_ok frames ->
    Forall (fun fr => exists t', last_sent_after (snd fr) = Some t' /\ t <= t')
           (run_frames names (Some t) frames).
Proof.
  induction frames as [|f frames IH]; intros t Hclk; [constructor|].
  inversion Hclk as [|? ? Hf Hrest]; subst.
  destruct (step_keeps_or_raises names t f Hf) as (t1 & E1 & Hle).
  cbn [run_frames]. constructor; [exists t1; auto|].
  destruct (ctl _); [|constructor].
  rewrite E1. specialize (IH t1 Hrest).
  eapply Forall_impl; [|exact IH].
  intros fr (t' & E & H). exists t'. split; [exact E | lra].
Qed.

Lemma last_sent_never_decreases_witness :
  Forall (fun fr => exists t', last_sent_after (snd fr) = Some t' /\ 100 <= t')
         (run_frames coco_names (Some 100)
            [frame_at 101 false; frame_at 106 true; frame_at 107 false]).
Proof.
  apply last_sent_never_decreases.
  repeat constructor; unfold clock_ok; simpl; apply Qle_refl.
Defined.

(** The published alerts of a run that starts from a stored time stamp
    [t >= b] all come at [b + COOLDOWN_SECONDS] or later. *)
Lemma published_after names b frames :
  forall t,
    b <= t ->
    Forall clock_ok frames ->
    Forall (fun u => b + inject_Z COOLDOWN_SECONDS <= u)
           (published_times (run_frames names (Some t) frames)).
Proof.
  intros t Hb Hclk. unfold published_times.
  apply Forall_forall. intros u Hu.
  apply in_map_iff in Hu. destruct Hu as ([f2 r2] & <- & Hin).
  apply filter_In in Hin. destruct Hin as [Hin Hd].
  apply andb_true_iff in Hd. destruct Hd as [Hd _]. simpl in Hd.
  apply in_split in Hin. destruct Hin as (before & after & Hrun).
  simpl. eapply later_dispatch_spaced; eauto.
Qed.

Lemma published_spaced names frames :
  forall last,
    Forall clock_ok frames ->
    spaced (published_times (run_frames names last frames)).
Proof.
  induction frames as [|f frames IH]; intros last Hclk; [exact I|].
  inversion Hclk as [|? ? Hf Hrest]; subst.
  cbn [run_frames]. unfold published_times. cbn [List.filter fst snd].
  set (r := frame_step names last f).
  assert (Htail : spaced
            (published_times
               match ctl r with
               | Break => []
               | Continue => run_frames names (last_sent_after r) frames
               end)).
  { destruct (ctl r); [apply IH; exact Hrest | exact I]. }
  destruct (dispatched r && negb (publish_raises (pub f))) eqn:E;
    [|exact Htail].
  cbn [List.map fst]. split; [|exact Htail].
  apply andb_true_iff in E. destruct E as [Hd Hok].
  apply negb_true_iff in Hok.
  destruct (ctl r); [|constructor].
  unfold r. rewrite (dispatched_sets _ _ _ Hd), (publish_alert_ok _ _ Hok).
  simpl snd. apply published_after; [exact Hf | exact Hrest].
Qed.

Lemma spaced_span (times : list Q) :
  forall lo hi,
    spaced times ->
    times <> [] ->
    Forall (fun u => lo <= u /\ u <= hi) times ->
    lo + inject_Z COOLDOWN_SECONDS
         * (inject_Z (Z.of_nat (List.length times)) - 1) <= hi.
Proof.
  change (inject_Z COOLDOWN_SECONDS) with 5.
  induction times as [|t rest IH]; intros lo hi Hs Hne Hall; [congruence|].
  destruct Hs as [Hgap Hs]. change (inject_Z COOLDOWN_SECONDS) with 5 in Hgap.
  inversion Hall as [|? ? [Hlo Hhi] Hrest]; subst.
  cbn [List.length]. rewrite Nat2Z.inj_succ. unfold Z.succ.
  rewrite inject_Z_plus. change (inject_Z 1) with 1.
  destruct rest as [|t2 rest'].
  - clear IH. simpl. change (inject_Z 0) with 0. lra.
  - assert (Hin : Forall (fun u => t + 5 <= u /\ u <= hi) (t2 :: rest')).
    { apply Forall_forall. intros u Hu. split.
      - rewrite Forall_forall in Hgap. apply (Hgap u Hu).
      - rewrite Forall_forall in Hrest. apply (Hrest u Hu). }
    specialize (IH (t + 5) hi Hs ltac:(discriminate) Hin).
    revert IH. generalize (inject_Z (Z.of_nat (List.length (t2 :: rest')))).
    intros n IH. lra.
Qed.

Lemma spaced_filter (p : Q -> bool) (times : list Q) :
  spaced times -> spaced (List.filter p times).
Proof.
  induction times as [|t rest IH]; intros Hs; [exact I|].
  destruct Hs as [Hgap Hs]. cbn [List.filter].
  destruct (p t); [|apply IH; exact Hs].
  split; [|apply IH; exact Hs].
  apply Forall_forall. intros u Hu. apply filter_In in Hu.
  rewrite Forall_forall in Hgap. apply Hgap. tauto.
Qed.

Lemma in_window_bounds a w times :
  Forall (fun u => a <= u /\ u <= a + w) (in_window a w times).
Proof.
  apply Forall_forall. intros u Hu. apply filter_In in Hu.
  destruct Hu as [_ Hu]. apply andb_true_iff in Hu.
  rewrite !Qle_bool_iff in Hu. exact Hu.
Qed.

(** X10. Whatever the detector, the broker and the file system do, as
    long as the clock does not run backwards between the gate and the
    return of the publish call: of the alerts published during a run of
    any length, those that fall in any one window of [w] seconds (from
    any [a] to [a + w]) number at most [w / COOLDOWN_SECONDS], rounded
    down, plus one. *)
Theorem published_alerts_rate_bound (names : list (Z * str))
  (last : option Q) (frames : list frame_env) (a w : Q) :
  Forall clock_ok frames ->
  0 <= w ->
  (Z.of_nat
     (List.length
        (in_window a w (published_times (run_frames names last frames))))
   <= Qfloor (w / inject_Z COOLDOWN_SECONDS) + 1)%Z.
Proof.
  intros Hclk Hw.
  set (times := in_window a w
                  (published_times (run_frames names last frames))).
  assert (Hq : inject_Z (Z.of_nat (List.length times) - 1)
               <= w / inject_Z COOLDOWN_SECONDS).
  { unfold Z.sub. rewrite inject_Z_plus.
    change (inject_Z (- (1))) with (- (1)).
    change (inject_Z COOLDOWN_SECONDS) with 5.
    unfold Qdiv. change (/ 5) with (1 # 5).
    destruct times as [|t rest] eqn:Et.
    - simpl. change (inject_Z 0) with 0. lra.
    - pose proof (spaced_span times a (a + w)) as H.
      rewrite Et in H.
      specialize (H ltac:(rewrite <- Et; apply spaced_filter;
                          apply published_spaced; exact Hclk)
                    ltac:(discriminate)
                    ltac:(rewrite <- Et; apply in_window_bounds)).
      change (inject_Z COOLDOWN_SECONDS) with 5 in H. revert H.
      generalize (inject_Z (Z.of_nat (List.length (t :: rest)))).
      intros n H. lra. }
  apply Qfloor_resp_le in Hq. rewrite Qfloor_Z in Hq. lia.
Qed.

Lemma published_alerts_rate_bound_witness :
  published_times (run_frames coco_names None scenario) = [0; 6]
  /\ (Z.of_nat
        (List.length
           (in_window 1 5
              (published_times (run_frames coco_names None scenario))))
      <= Qfloor (5 / inject_Z COOLDOWN_SECONDS) + 1)%Z.
Proof.
  split; [reflexivity|].
  apply (published_alerts_rate_bound coco_names None scenario 1 5).
  - repeat constructor; unfold clock_ok; simpl; apply Qle_refl.
  - unfold Qle; simpl; lia.
Defined.

End RunFacts.

(** ** The publisher's main *)

Module MainFacts.

Import Publisher Spec Samples Observe CooldownFacts.
Open Scope Q_scope.

(** X11. The loop over a concatenation of inputs: when the loop is still
    running at the end of the first part, it goes on with the second part
    from the [last_sent] it reached; when the first part ended it (quit
    key, Ctrl+C, exception), the second part is never looked at. *)
Theorem frame_loop_app (names : list (Z * str))
  (inputs1 inputs2 : list loop_input) :
  forall last,
    frame_loop names last (inputs1 ++ inputs2)
    = match frame_loop names last inputs1 with
      | (evs1, Running last1) =>
        let (evs2, e) := frame_loop names last1 inputs2 in (evs1 ++ evs2, e)
      | ended => ended
      end.
Proof.
  induction inputs1 as [|[f| |] inputs1 IH]; intros last; simpl.
  - destruct (frame_loop names last inputs2); reflexivity.
  - destruct (ctl (frame_step names last f)); [|reflexivity].
    rewrite IH.
    destruct (frame_loop names (last_sent_after (frame_step names last f))
                inputs1) as [evs1 [| | |last1]]; try reflexivity.
    destruct (frame_loop names last1 inputs2) as [evs2 e].
    rewrite app_assoc. reflexivity.
  - reflexivity.
  - reflexivity.
Qed.

Lemma step_never_releases names last f :
  occurrences is_release (events (frame_step names last f)) = 0%nat.
Proof.
  unfold frame_step, publish_alert.
  destruct (ret f); simpl; [|reflexivity].
  destruct (intrusion _); [destruct (cooldown_over _ _)|];
    destruct (imwrite_raises f); destruct (publish_raises (pub f));
    destruct (Z.eqb _ _); reflexivity.
Qed.

Lemma loop_never_releases names inputs :
  forall last,
    occurrences is_release (fst (frame_loop names last inputs)) = 0%nat.
Proof.
  induction inputs as [|[f| |] inputs IH]; intros last; simpl;
    try reflexivity.
  destruct (ctl (frame_step names last f)).
  - specialize (IH (last_sent_after (frame_step names last f))).
    destruct (frame_loop names _ inputs) as [evs e]. simpl in *.
    rewrite FrameFacts.occurrences_app, step_never_releases, IH. reflexivity.
  - simpl. apply step_never_releases.
Qed.

(** X12. [main] from its first line.  When the evidence directory
    cannot be made the process ends with an uncaught exception and has
    printed nothing; when the model cannot be loaded it ends the same way
    after the one line that announces the loading.  When the broker
    cannot be reached, or the camera cannot be opened, [main] prints that
    line and one failure message and returns (the connect is tried
    first).  In none of the four cases is a frame processed or anything
    released.  Otherwise the first line printed is the announcement and
    the resources are released exactly once, as the last action, on every
    way out of the loop (quit key, Ctrl+C, any other exception), and not
    before. *)
Theorem main_releases_once_at_the_end (start : startup_env)
  (names : list (Z * str)) (inputs : list loop_input) :
  (mkdir_raises start = true ->
   main start names inputs = ([], Some Process.Uncaught))
  /\ (mkdir_raises start = false -> model_load_raises start = true ->
      main start names inputs
      = ([Print_loading_model], Some Process.Uncaught))
  /\ (mkdir_raises start = false -> model_load_raises start = false ->
      connect_raises start = true ->
      main start names inputs
      = ([Print_loading_model; Print_connect_failed],
         Some Process.Returns))
  /\ (mkdir_raises start = false -> model_load_raises start = false ->
      connect_raises start = false -> camera_opened start = false ->
      main start names inputs
      = ([Print_loading_model; Print_camera_failed],
         Some Process.Returns))
  /\ (mkdir_raises start = false -> model_load_raises start = false ->
      connect_raises start = false -> camera_opened start = true ->
      exists evs,
        occurrences is_release evs = 0%nat
        /\ (main start names inputs = (Print_loading_model :: evs, None)
            \/ main start names inputs
               = (Print_loading_model :: evs ++ [Release_all],
                  Some Process.Returns))).
Proof.
  unfold main. split; [|split; [|split; [|split]]].
  - intros ->. reflexivity.
  - intros -> ->. reflexivity.
  - intros -> -> ->. reflexivity.
  - intros -> -> -> ->. reflexivity.
  - intros -> -> -> ->. simpl.
    pose proof (loop_never_releases names inputs None) as H.
    destruct (frame_loop names None inputs) as [evs [| | |last]];
      simpl in *; exists evs; (split; [exact H|]); auto.
Qed.

Lemma main_releases_once_at_the_end_witness :
  main {| mkdir_raises := true; model_load_raises := false;
          connect_raises := false; camera_opened := true |} coco_names
       [Frame (frame_at 0 false)]
  = ([], Some Process.Uncaught)
  /\ main {| mkdir_raises := false; model_load_raises := true;
             connect_raises := false; camera_opened := true |} coco_names
          [Frame (frame_at 0 false)]
     = ([Print_loading_model], Some Process.Uncaught)
  /\ main {| mkdir_raises := false; model_load_raises := false;
             connect_raises := true; camera_opened := true |} coco_names
          [Frame (frame_at 0 false)]
     = ([Print_loading_model; Print_connect_failed], Some Process.Returns)
  /\ main {| mkdir_raises := false; model_load_raises := false;
             connect_raises := false; camera_opened := false |} coco_names
          [Frame (frame_at 0 false)]
     = ([Print_loading_model; Print_camera_failed], Some Process.Returns)
  /\ snd (main startup_ok coco_names
               [Frame (frame_at 0 false); KeyboardInterrupt])
     = Some Process.Returns.
Proof.
  split; [|split; [|split; [|split]]].
  - apply main_releases_once_at_the_end. reflexivity.
  - apply main_releases_once_at_the_end; reflexivity.
  - apply main_releases_once_at_the_end; reflexivity.
  - apply main_releases_once_at_the_end; reflexivity.
  - destruct (main_releases_once_at_the_end startup_ok coco_names
                [Frame (frame_at 0 false); KeyboardInterrupt])
      as (_ & _ & _ & _ & H).
    destruct (H eq_refl eq_refl eq_refl eq_refl) as (evs & _ & [H1|H1]);
      rewrite H1; [|reflexivity].
    exfalso. discriminate H1.
Defined.

End MainFacts.

(** ** The handler and the listening loop, further *)

Module HandlerFacts.

Import Json Subscriber Spec Samples Observe ListenerFacts.





(** X14. On every payload the handler notifies at most once, and it
    sounds the attention signal exactly as often as it notifies: never a
    signal without the message, never the message without a signal. *)
Theorem attention_only_with_notification (lim : limits)
  (winsound_ok : bool) (payload : string) :
  (count is_notification (fst (on_message lim winsound_ok payload)) <= 1)%nat
  /\ count is_attention (fst (on_message lim winsound_ok payload))
     = count is_notification (fst (on_message lim winsound_ok payload)).
Proof.
  unfold on_message, count.
  destruct (decode lim payload) as [| |data status ts location];
    [split; [simpl; lia | reflexivity] .. |].
  destruct (is_intrusion status); [|split; [simpl; lia | reflexivity]].
  destruct (can_print location && can_print ts);
    [|split; [simpl; lia | reflexivity]].
  destruct winsound_ok; split; simpl; try lia; reflexivity.
Qed.

(** X15. The listening loop over a concatenation of inputs: while the
    handler returns and no Ctrl+C arrives the messages are handled in
    order; once the loop has ended, by Ctrl+C or by an exception of the
    handler, no later message is handled. *)
Theorem loop_forever_app (lim : limits) (winsound_ok : bool)
  (inputs1 inputs2 : list loop_input) :
  loop_forever lim winsound_ok (inputs1 ++ inputs2)
  = match loop_forever lim winsound_ok inputs1 with
    | (evs1, Running) =>
      let (evs2, e) := loop_forever lim winsound_ok inputs2 in
      (evs1 ++ evs2, e)
    | ended => ended
    end.
Proof.
  induction inputs1 as [|[payload|] inputs1 IH]; simpl.
  - destruct (loop_forever lim winsound_ok inputs2); reflexivity.
  - destruct (on_message lim winsound_ok payload) as [evs [| |]];
      try reflexivity.
    rewrite IH.
    destruct (loop_forever lim winsound_ok inputs1) as [evs1 [| |]];
      try reflexivity.
    destruct (loop_forever lim winsound_ok inputs2) as [evs2 e].
    rewrite app_assoc. reflexivity.
  - reflexivity.
Qed.

Lemma handler_never_disconnects lim winsound_ok payload :
  occurrences is_disconnect (fst (on_message lim winsound_ok payload))
  = 0%nat.
Proof.
  unfold on_message.
  destruct (decode lim payload) as [| |data status ts location];
    try reflexivity.
  destruct (is_intrusion status); [|reflexivity].
  destruct (can_print location && can_print ts); [|reflexivity].
  destruct winsound_ok; reflexivity.
Qed.

Lemma loop_never_disconnects lim winsound_ok inputs :
  occurrences is_disconnect (fst (loop_forever lim winsound_ok inputs))
  = 0%nat.
Proof.
  induction inputs as [|[payload|] inputs IH]; simpl; try reflexivity.
  pose proof (handler_never_disconnects lim winsound_ok payload) as H.
  destruct (on_message lim winsound_ok payload) as [evs [| |]];
    simpl in *; try exact H.
  destruct (loop_forever lim winsound_ok inputs) as [evs' e]. simpl in *.
  rewrite FrameFacts.occurrences_app, H, IH. reflexivity.
Qed.

(** X16. The subscriber disconnects from the broker exactly once on every
    way out of the listening loop and never when the initial connect
    failed; and when it ends, its exit status is 0 exactly when it had
    connected and the loop was ended by Ctrl+C. *)
Theorem subscriber_main_exit (lim : limits)
  (connect_raises winsound_ok : bool)
  (inputs : list loop_input) (t : Process.termination) :
  snd (main lim connect_raises winsound_ok inputs) = Some t ->
  occurrences is_disconnect
    (fst (main lim connect_raises winsound_ok inputs))
  = (if connect_raises then 0 else 1)%nat
  /\ (Process.exit_status t = 0%Z
      <-> connect_raises = false
          /\ snd (loop_forever lim winsound_ok inputs) = Interrupted).
Proof.
  unfold main. destruct connect_raises.
  - simpl. intros H. injection H as <-. split; [reflexivity|].
    split; [discriminate | intros [H _]; discriminate].
  - pose proof (loop_never_disconnects lim winsound_ok inputs) as Hn.
    destruct (loop_forever lim winsound_ok inputs) as [evs [| |]];
      simpl in *;
      intros H; try discriminate; injection H as <-;
      (split; [unfold occurrences in *; simpl;
               rewrite filter_app, length_app, Hn; reflexivity|]);
      simpl; split; try discriminate; try tauto.
    intros [_ H]. discriminate.
Qed.

Lemma subscriber_main_exit_witness :
  occurrences is_disconnect
    (fst (main default_limits false false
               [Message payload_intrusion; KeyboardInterrupt]))
  = 1%nat
  /\ Process.exit_status Process.Returns = 0%Z.
Proof.
  destruct (subscriber_main_exit default_limits false false
              [Message payload_intrusion; KeyboardInterrupt]
              Process.Returns eq_refl) as [Hd Hs].
  split; [exact Hd|]. apply Hs. split; reflexivity.
Defined.

End HandlerFacts.

(** ** The fields of a payload *)

Module PayloadFacts.

Import Json Subscriber Spec Samples Observe ListenerFacts.
Open Scope N_scope.








(** A text can be written to standard output exactly when it holds no
    surrogate. *)
Lemma encode_char_scalar c :
  Utf8.encode_char c <> None <-> is_scalar c = true.
Proof.
  unfold Utf8.encode_char, is_scalar, Utf8.is_surrogate.
  destruct (c <? 128) eqn:E1; [|destruct (c <? 2048) eqn:E2;
    [|destruct (c <? 65536) eqn:E3]].
  - apply N.ltb_lt in E1.
    replace (c <=? 1114111) with true by (symmetry; apply N.leb_le; lia).
    replace (55296 <=? c) with false by (symmetry; apply N.leb_gt; lia).
    simpl. split; [reflexivity | discriminate].
  - apply N.ltb_lt in E2.
    replace (c <=? 1114111) with true by (symmetry; apply N.leb_le; lia).
    replace (55296 <=? c) with false by (symmetry; apply N.leb_gt; lia).
    simpl. split; [reflexivity | discriminate].
  - apply N.ltb_lt in E3.
    replace (c <=? 1114111) with true by (symmetry; apply N.leb_le; lia).
    simpl. destruct ((55296 <=? c) && (c <=? 57343)); simpl;
      split; try discriminate; try reflexivity. intros H; congruence.
  - apply N.ltb_ge in E3.
    replace (c <=? 57343) with false by (symmetry; apply N.leb_gt; lia).
    rewrite andb_false_r. simpl. rewrite andb_true_r.
    destruct (c <=? 1114111); split; try discriminate; try reflexivity.
    intros H; congruence.
Qed.

Lemma can_print_text s :
  can_print (VStr s) = true <-> forallb is_scalar s = true.
Proof.
  unfold can_print. induction s as [|c s IH]; simpl.
  - split; reflexivity.
  - rewrite andb_true_iff, <- IH, <- encode_char_scalar.
    destruct (Utf8.encode_char c), (Utf8.encode_list s);
      split; try discriminate; try tauto;
      try (intros _; split; [discriminate | reflexivity]);
      intros [H1 H2]; try discriminate; congruence.
Qed.



End PayloadFacts.

(** ** From the publisher to the subscriber *)

Module PipelineFacts.

Import Json Spec Samples Observe JsonFacts.

(** X18. Every alert the publisher sends is shown by the subscriber: when
    the publish call returns, one message has gone to the topic the
    subscriber subscribes to, and the handler, given its bytes, prints the
    urgent message with the location "Living Room" and the time stamp the
    publisher put in, sounds the signal and returns.  (The stamp is any
    text of Unicode scalar values.) *)
Theorem published_alert_is_notified (env : Publisher.publish_env)
  (last : option Q) (winsound_ok : bool) :
  Publisher.publish_raises env = false ->
  forallb is_scalar (Publisher.payload_stamp env) = true ->
  exists text wire,
    fst (Publisher.publish_alert env last)
    = [Publisher.MqttPublish SubscriberClient.MQTT_TOPIC text;
       Publisher.Print_alert_sent
         (Publisher.alert_payload (Publisher.payload_stamp env))]
    /\ Utf8.encode text = Some wire
    /\ forall lim,
        Subscriber.on_message lim winsound_ok wire
        = (Subscriber.Print_urgent (VStr Publisher.LOCATION_LABEL)
                                   (VStr (Publisher.payload_stamp env))
           :: Subscriber.beep winsound_ok,
           Subscriber.Returned).
Proof.
  intros Hok Hstamp.
  set (payload := Publisher.alert_payload (Publisher.payload_stamp env)).
  destruct (utf8_ascii_roundtrip (dumps payload) (dumps_ascii payload))
    as (wire & Henc & Hdec).
  exists (dumps payload), wire. split; [|split].
  - unfold Publisher.publish_alert. rewrite Hok. reflexivity.
  - exact Henc.
  - assert (Hv : forallb valid_pair payload = true).
    { unfold payload, Publisher.alert_payload, valid_pair.
      cbn [forallb fst snd]. rewrite Hstamp. reflexivity. }
    intros lim. unfold Subscriber.on_message, Subscriber.decode.
    rewrite Hdec, (loads_dumps lim payload Hv).
    apply PayloadFacts.can_print_text in Hstamp.
    cbn -[Subscriber.can_print Publisher.LOCATION_LABEL].
    rewrite Hstamp. reflexivity.
Qed.

Lemma published_alert_is_notified_witness :
  exists text wire,
    fst (Publisher.publish_alert (Publisher.pub (frame_at 0 false)) None)
    = [Publisher.MqttPublish SubscriberClient.MQTT_TOPIC text;
       Publisher.Print_alert_sent
         (Publisher.alert_payload (txt "2024-01-01 00:00:00"))]
    /\ Utf8.encode text = Some wire
    /\ forall lim,
        Subscriber.on_message lim false wire
        = (Subscriber.Print_urgent (VStr Publisher.LOCATION_LABEL)
                                   (VStr (txt "2024-01-01 00:00:00"))
           :: Subscriber.beep false,
           Subscriber.Returned).
Proof.
  apply (published_alert_is_notified (Publisher.pub (frame_at 0 false)));
    reflexivity.
Defined.

End PipelineFacts.

(** ** The connection callbacks *)

Module ClientFacts.

Import Observe.

(** X19. The publisher's disconnect handler tries to reconnect exactly
    once after an unexpected disconnect (a non-zero code) and not at all
    after a clean one; when the attempt raises, the failure is printed as
    the last thing and nothing is retried. *)
Theorem publisher_reconnects_at_most_once (rc : Z) (reconnect_raises : bool) :
  occurrences is_publisher_reconnect
    (PublisherClient.on_disconnect rc reconnect_raises)
  = (if Z.eqb rc 0 then 0 else 1)%nat
  /\ (In PublisherClient.Print_reconnect_failed
         (PublisherClient.on_disconnect rc reconnect_raises)
      <-> rc <> 0%Z /\ reconnect_raises = true)
  /\ (rc = 0%Z -> PublisherClient.on_disconnect rc reconnect_raises = []).
Proof.
  unfold PublisherClient.on_disconnect.
  destruct (Z.eqb_spec rc 0) as [->|Hrc]; simpl.
  - split; [reflexivity|]. split; [|reflexivity].
    split; [intros [] | intros [H _]; congruence].
  - destruct reconnect_raises; simpl.
    + split; [reflexivity|]. split; [|congruence].
      split; auto.
    + split; [reflexivity|]. split; [|congruence].
      split; [|intros [_ H]; discriminate].
      intros [H|[H|[]]]; discriminate.
Qed.

(** X20. The subscriber subscribes exactly when the broker accepts the
    connection (code 0), and then to the topic the publisher publishes
    on; a refused connection subscribes to nothing. *)
Theorem subscribes_iff_connected (rc : Z) (topic : str) :
  In (SubscriberClient.Subscribe topic) (SubscriberClient.on_connect rc)
  <-> rc = 0%Z /\ topic = Publisher.MQTT_TOPIC.
Proof.
  unfold SubscriberClient.on_connect.
  destruct (Z.eqb_spec rc 0) as [->|Hrc]; simpl.
  - split.
    + intros [H|[H|[]]]; [discriminate|]. injection H as <-. auto.
    + intros [_ ->]. right. left. reflexivity.
  - split; [intros [H|[]]; discriminate | intros [H _]; contradiction].
Qed.

Lemma reconnect_loop_fails (k : nat) (rest : list bool) :
  SubscriberClient.reconnect_loop (List.repeat true k ++ false :: rest)
  = (List.concat
       (List.repeat [SubscriberClient.Reconnect;
                     SubscriberClient.Print_reconnect_failed;
                     SubscriberClient.Sleep 5] k)
     ++ [SubscriberClient.Reconnect; SubscriberClient.Print_reconnected],
     true).
Proof.
  induction k as [|k IH]; simpl; [reflexivity|]. rewrite IH. reflexivity.
Qed.

Lemma reconnect_counts k :
  let evs :=
    List.concat
      (List.repeat [SubscriberClient.Reconnect;
                    SubscriberClient.Print_reconnect_failed;
                    SubscriberClient.Sleep 5] k)
    ++ [SubscriberClient.Reconnect; SubscriberClient.Print_reconnected] in
  occurrences is_reconnect evs = S k /\ slept evs = (5 * Z.of_nat k)%Z.
Proof.
  induction k as [|k [IHr IHs]]; [split; reflexivity|].
  cbn zeta in *. split.
  - unfold occurrences in *. simpl. rewrite IHr. reflexivity.
  - cbn [List.repeat List.concat app slept]. rewrite IHs. lia.
Qed.

(** X21. After an unexpected disconnect, when the first [k] reconnect
    attempts raise and the next one succeeds, the subscriber's handler
    makes exactly [k + 1] attempts, sleeps 5 seconds after each failure
    ([5 k] seconds in all), and returns right after the success. *)
Theorem subscriber_reconnects_until_success (rc : Z) (k : nat)
  (rest : list bool) :
  rc <> 0%Z ->
  let result :=
    SubscriberClient.on_disconnect rc (List.repeat true k ++ false :: rest) in
  snd result = true
  /\ occurrences is_reconnect (fst result) = S k
  /\ slept (fst result) = (5 * Z.of_nat k)%Z
  /\ last (fst result) SubscriberClient.Print_unexpected_disconnect
     = SubscriberClient.Print_reconnected.
Proof.
  intros Hrc. unfold SubscriberClient.on_disconnect.
  destruct (Z.eqb_spec rc 0) as [E|_]; [contradiction|].
  cbn [negb]. rewrite reconnect_loop_fails. cbn zeta. cbn [fst snd].
  destruct (reconnect_counts k) as [Hr Hs]. cbn zeta in Hr, Hs.
  split; [reflexivity|]. split; [|split].
  - unfold occurrences in *. simpl. exact Hr.
  - simpl. exact Hs.
  - change [SubscriberClient.Reconnect; SubscriberClient.Print_reconnected]
      with ([SubscriberClient.Reconnect]
            ++ [SubscriberClient.Print_reconnected]).
    rewrite app_comm_cons, app_assoc. apply last_last.
Qed.

Lemma subscriber_reconnects_until_success_witness :
  SubscriberClient.on_disconnect 7 [true; true; false; true]
  = ([SubscriberClient.Print_unexpected_disconnect;
      SubscriberClient.Reconnect; SubscriberClient.Print_reconnect_failed;
      SubscriberClient.Sleep 5;
      SubscriberClient.Reconnect; SubscriberClient.Print_reconnect_failed;
      SubscriberClient.Sleep 5;
      SubscriberClient.Reconnect; SubscriberClient.Print_reconnected], true)
  /\ slept (fst (SubscriberClient.on_disconnect 7 [true; true; false; true]))
     = 10%Z.
Proof.
  split; [reflexivity|].
  destruct (subscriber_reconnects_until_success 7 2 [true]
              ltac:(discriminate)) as (_ & _ & H & _).
  exact H.
Defined.

Lemma reconnect_loop_left attempts :
  snd (SubscriberClient.reconnect_loop attempts) = true
  <-> In false attempts.
Proof.
  induction attempts as [|[|] attempts IH]; simpl.
  - split; [discriminate | intros []].
  - destruct (SubscriberClient.reconnect_loop attempts) as [evs left].
    simpl in *. rewrite IH. split; auto. intros [H|H]; [discriminate|auto].
  - split; auto.
Qed.

(** X22. The subscriber's disconnect handler returns exactly when the
    disconnect was a clean one (code 0) or one of the reconnect attempts
    succeeds: however many attempts raise, it keeps trying and never gives
    up on its own. *)
Theorem subscriber_never_gives_up (rc : Z) (attempts : list bool) :
  snd (SubscriberClient.on_disconnect rc attempts) = true
  <-> rc = 0%Z \/ In false attempts.
Proof.
  unfold SubscriberClient.on_disconnect.
  destruct (Z.eqb_spec rc 0) as [->|Hrc]; cbn [negb].
  - split; auto.
  - pose proof (reconnect_loop_left attempts) as H.
    destruct (SubscriberClient.reconnect_loop attempts) as [evs left].
    simpl in *. rewrite H. split; auto. intros [E|E]; [contradiction|auto].
Qed.

End ClientFacts.

(** ** Exit status, further *)

Module ExitMoreFacts.

Import Samples.



End ExitMoreFacts.
